(** * pico_synth_sandbox-player: the playback engine of [code.py]

    A shallow embedding of the [SongPlayer] task (play / stop / is_playing /
    update), of the three song-selection callbacks and of the collaborators
    they drive, and of the validation of the configuration ([Validation],
    [Song.valid], [Song.__init__], the loop that builds the catalogue),
    followed by their properties.

    Conventions of the embedding.
    - The interpreter state that [code.py] touches is one record [Sys]: the
      [player] object, the module globals [level], [selected] and [songs],
      and the [world] (clock, files, Audio Channel, MIDI generators).
    - Python code is written in a state-and-exception monad [M]: a raised
      exception keeps every assignment made before it, as in Python.
    - Every call made on a collaborator is appended, with the clock reading
      at which it was made, to [history]; properties about ordering are
      stated on that history.
    - [await asyncio.sleep] is the only suspension point of [update]; what the
      rest of the program does while the coroutine sleeps is supplied to
      [update] as a schedule. *)

From Stdlib Require Import String Ascii ZArith List Bool Lia QArith.
Import ListNotations.
Local Open Scope Z_scope.

Set Implicit Arguments.

(* ------------------------------------------------------------------ *)
(** ** Data *)

(** [umidiparser]: the status constants compared in [update] and the
    attributes of an event that [update] reads. *)
Module umidiparser.
Definition NOTE_OFF : Z := 128.
Definition NOTE_ON : Z := 144.
Definition CONTROL_CHANGE : Z := 176.
Definition PROGRAM_CHANGE : Z := 192.

Record MidiEvent := mkEvent {
  delta_us : Z;
  status : Z;
  channel : Z;
  note : Z;
  velocity : Z;
  control : Z;
  value : Z;
  program : Z
}.
End umidiparser.
Import umidiparser.

(** class Song (the attributes set by [__init__], and the two predicates). *)
Module Song.
Record t := mk {
  keynum : Z;
  midi_note : option Z;
  audio_file : option string;
  midi_file : option string;
  title : string
}.

Definition is_none {A} (o : option A) : bool :=
  match o with None => true | Some _ => false end.

Definition is_key (self : t) (k : Z) : bool := keynum self =? k.
Definition has_audio (self : t) : bool := negb (is_none (audio_file self)).
Definition has_midi (self : t) : bool := negb (is_none (midi_file self)).
End Song.

(** What a caller may hand to [play]: [isinstance(song, Song)] holds for the
    first constructor only. *)
Inductive pyobj :=
| PySong (s : Song.t)
| PyNone
| PyInt (z : Z)
| PyStr (s : string).

Definition isinstance_Song (o : pyobj) : bool :=
  match o with PySong _ => true | _ => false end.

(** [audiocore.WaveFile]: the open file it reads and the three format
    attributes [play] passes to [audio.configure]. *)
Record WaveFile := mkWave {
  wav_fd : nat;
  sample_rate : Z;
  channel_count : Z;
  bits_per_sample : Z
}.

(** What is found behind an audio path, and behind a MIDI path. *)
Inductive AudioAsset :=
| NoFile                                  (* open(...) raises *)
| BadWave                                 (* audiocore.WaveFile(...) raises *)
| Wave (rate channels bits : Z).

Record Disk := mkDisk {
  audio_asset : string -> AudioAsset;
  midi_asset : string -> option (list MidiEvent)   (* None: MidiFile raises *)
}.

(** Commands accepted by the MIDI Output. *)
Inductive MidiCmd :=
| send_note_on (n v c : Z)
| send_note_off (n c : Z)
| send_control_change (ctl v c : Z)
| send_program_change (p c : Z).

(** Calls on collaborators, as recorded in the history.  A [midi_send]
    carries the generator whose event caused it. *)
Inductive Call :=
| audio_stop
| audio_configure (rate channels bits : Z)
| audio_set_level (lv : Q)
| audio_play (w : WaveFile)
| file_open (path : string) (fd : nat)
| file_close (fd : nat)
| midi_open (path : string) (cursor : nat)
| sleep_us (d : Z)
| midi_send (cursor : nat) (m : MidiCmd).

Record World := mkWorld {
  clock : Z;                          (* time.monotonic_ns() // 1000 *)
  disk : Disk;
  open_files : list nat;              (* handles opened and not yet closed *)
  next_fd : nat;
  streaming : option WaveFile;        (* what the Audio Channel is playing *)
  cursors : list (list MidiEvent);    (* generator objects: events not yet pulled *)
  history : list (Z * Call)
}.

(** The attributes of a [SongPlayer] instance. *)
Module SongPlayer.
Record t := mk {
  song : option Song.t;
  audio_file : option nat;
  audio_wav : option WaveFile;
  audio_playing : bool;
  midi_track : option nat;
  midi_playing : bool;
  start_time : Z
}.

(** [__init__] *)
Definition init : t := mk None None None false None false 0.
End SongPlayer.

Record Sys := mkSys {
  player : SongPlayer.t;
  world : World;
  level : Q;
  selected : Z;
  songs : list Song.t
}.

(* ------------------------------------------------------------------ *)
(** ** The monad of Python statements *)

Inductive exn :=
| OSError (path : string)
| ValueError (path : string)
| ZeroDivisionError
| IndexError.

Inductive result (A : Type) :=
| Return (a : A)
| Raise (e : exn).
Arguments Return {A} a.
Arguments Raise {A} e.

Definition M (A : Type) : Type := Sys -> result A * Sys.

Definition ret {A} (a : A) : M A := fun s => (Return a, s).
Definition raise {A} (e : exn) : M A := fun s => (Raise e, s).
Definition bind {A B} (m : M A) (k : A -> M B) : M B :=
  fun s => match m s with
           | (Return a, s') => k a s'
           | (Raise e, s') => (Raise e, s')
           end.
Definition gets {A} (f : Sys -> A) : M A := fun s => (Return (f s), s).
Definition modify (f : Sys -> Sys) : M unit := fun s => (Return tt, f s).

Notation "x <- m ;; k" := (bind m (fun x => k))
  (at level 61, m at next level, right associativity).
Notation "m ;; k" := (bind m (fun _ => k))
  (at level 61, right associativity).

Definition when (b : bool) (m : M unit) : M unit := if b then m else ret tt.

(** Final state and outcome of a statement. *)
Definition exec {A} (m : M A) (s : Sys) : Sys := snd (m s).
Definition outcome {A} (m : M A) (s : Sys) : result A := fst (m s).

(* ------------------------------------------------------------------ *)
(** ** Field updates *)

Definition with_player (f : SongPlayer.t -> SongPlayer.t) (s : Sys) : Sys :=
  mkSys (f (player s)) (world s) (level s) (selected s) (songs s).
Definition with_world (f : World -> World) (s : Sys) : Sys :=
  mkSys (player s) (f (world s)) (level s) (selected s) (songs s).
Definition with_selected (z : Z) (s : Sys) : Sys :=
  mkSys (player s) (world s) (level s) z (songs s).

Import SongPlayer.

Definition set_song v (p : SongPlayer.t) :=
  mk v (audio_file p) (audio_wav p) (audio_playing p) (midi_track p)
     (midi_playing p) (start_time p).
Definition set_audio_file v (p : SongPlayer.t) :=
  mk (song p) v (audio_wav p) (audio_playing p) (midi_track p)
     (midi_playing p) (start_time p).
Definition set_audio_wav v (p : SongPlayer.t) :=
  mk (song p) (audio_file p) v (audio_playing p) (midi_track p)
     (midi_playing p) (start_time p).
Definition set_audio_playing v (p : SongPlayer.t) :=
  mk (song p) (audio_file p) (audio_wav p) v (midi_track p)
     (midi_playing p) (start_time p).
Definition set_midi_track v (p : SongPlayer.t) :=
  mk (song p) (audio_file p) (audio_wav p) (audio_playing p) v
     (midi_playing p) (start_time p).
Definition set_midi_playing v (p : SongPlayer.t) :=
  mk (song p) (audio_file p) (audio_wav p) (audio_playing p) (midi_track p)
     v (start_time p).
Definition set_start_time v (p : SongPlayer.t) :=
  mk (song p) (audio_file p) (audio_wav p) (audio_playing p) (midi_track p)
     (midi_playing p) v.

Definition set_clock v (w : World) :=
  mkWorld v (disk w) (open_files w) (next_fd w) (streaming w) (cursors w)
          (history w).
Definition set_open_files v (w : World) :=
  mkWorld (clock w) (disk w) v (next_fd w) (streaming w) (cursors w)
          (history w).
Definition set_next_fd v (w : World) :=
  mkWorld (clock w) (disk w) (open_files w) v (streaming w) (cursors w)
          (history w).
Definition set_streaming v (w : World) :=
  mkWorld (clock w) (disk w) (open_files w) (next_fd w) v (cursors w)
          (history w).
Definition set_cursors v (w : World) :=
  mkWorld (clock w) (disk w) (open_files w) (next_fd w) (streaming w) v
          (history w).
Definition set_history v (w : World) :=
  mkWorld (clock w) (disk w) (open_files w) (next_fd w) (streaming w)
          (cursors w) v.

(** Assignment to an attribute of [self]. *)
Definition assign (f : SongPlayer.t -> SongPlayer.t) : M unit :=
  modify (with_player f).
Definition self {A} (f : SongPlayer.t -> A) : M A := gets (fun s => f (player s)).

(* ------------------------------------------------------------------ *)
(** ** Collaborators *)

(** Append a call to the history, stamped with the current clock. *)
Definition record (c : Call) (w : World) : World :=
  set_history (history w ++ [(clock w, c)]) w.
Definition call (c : Call) : M unit := modify (with_world (record c)).

(** time.monotonic_ns() // 1000 *)
Definition monotonic_us : M Z := gets (fun s => clock (world s)).

(** The Audio Channel.  Its contract: [stop] ends streaming, [play] starts
    it, [is_playing] tells whether it streams; the stream also ends by
    itself when the waveform is exhausted (see [Ext] below). *)
Module audio.
Definition stop : M unit :=
  call audio_stop ;; modify (with_world (set_streaming None)).
Definition configure (rate channels bits : Z) : M unit :=
  call (audio_configure rate channels bits).
Definition set_level (lv : Q) : M unit := call (audio_set_level lv).
Definition play (w : WaveFile) : M unit :=
  call (audio_play w) ;; modify (with_world (set_streaming (Some w))).
Definition is_playing : M bool :=
  gets (fun s => negb (Song.is_none (streaming (world s)))).
End audio.

(** open(path, "rb") *)
Definition open (path : string) : M nat :=
  a <- gets (fun s => audio_asset (disk (world s)) path) ;;
  match a with
  | NoFile => raise (OSError path)
  | _ =>
      fd <- gets (fun s => next_fd (world s)) ;;
      call (file_open path fd) ;;
      modify (with_world (fun w =>
        set_next_fd (S fd) (set_open_files (fd :: open_files w) w))) ;;
      ret fd
  end.

(** file.close() *)
Definition close (fd : nat) : M unit :=
  call (file_close fd) ;;
  modify (with_world (fun w =>
    set_open_files (filter (fun x => negb (Nat.eqb x fd)) (open_files w)) w)).

(** audiocore.WaveFile(file); [path] is the path [file] was opened on. *)
Definition WaveFile_of (path : string) (fd : nat) : M WaveFile :=
  a <- gets (fun s => audio_asset (disk (world s)) path) ;;
  match a with
  | Wave r c b => ret (mkWave fd r c b)
  | _ => raise (ValueError path)
  end.

(** umidiparser.MidiFile(path).play(sleep=False): a new generator. *)
Definition MidiFile_play (path : string) : M nat :=
  a <- gets (fun s => midi_asset (disk (world s)) path) ;;
  match a with
  | None => raise (OSError path)
  | Some evs =>
      c <- gets (fun s => List.length (cursors (world s))) ;;
      call (midi_open path c) ;;
      modify (with_world (fun w => set_cursors (cursors w ++ [evs]) w)) ;;
      ret c
  end.

(** The global [midi] object. *)
Definition midi_call (cursor : nat) (m : MidiCmd) : M unit :=
  call (midi_send cursor m).

(* ------------------------------------------------------------------ *)
(** ** SongPlayer.stop, play, is_playing *)

Definition stop : M unit :=
  audio.stop ;;
  f <- self audio_file ;;
  match f with
  | Some fd => close fd ;; assign (set_audio_file None)
  | None => ret tt
  end ;;
  assign (set_midi_playing false) ;;
  sg <- self song ;;
  match sg with
  | Some _ => assign (set_song None)
  | None => ret tt
  end.

Definition play (arg : pyobj) : M bool :=
  stop ;;
  match arg with
  | PySong sg =>
      assign (set_song (Some sg)) ;;
      match Song.midi_file sg with
      | Some path =>
          c <- MidiFile_play path ;;
          assign (set_midi_track (Some c))
      | None => ret tt
      end ;;
      match Song.audio_file sg with
      | Some path =>
          fd <- open path ;;
          assign (set_audio_file (Some fd)) ;;
          wv <- WaveFile_of path fd ;;
          assign (set_audio_wav (Some wv)) ;;
          audio.configure (sample_rate wv) (channel_count wv) (bits_per_sample wv) ;;
          lv <- gets level ;;
          audio.set_level lv ;;
          audio.play wv ;;
          assign (set_audio_playing true)
      | None => ret tt
      end ;;
      t <- monotonic_us ;;
      assign (set_start_time t) ;;
      ret true
  | _ => ret false
  end.

Definition is_playing : M bool :=
  sg <- self song ;;
  match sg with
  | None => ret false
  | Some _ => ret true
  end.

(* ------------------------------------------------------------------ *)
(** ** The song-selection callbacks *)

(** The Display collaborator is outside the engine; its calls are not
    recorded. *)
Definition update_display : M unit := ret tt.

(** [a % len(songs)]: Python's remainder takes the sign of the divisor, as
    [Z.modulo] does; a zero divisor raises. *)
Definition py_mod (a : Z) (n : nat) : M Z :=
  match n with
  | O => raise ZeroDivisionError
  | _ => ret (a mod Z.of_nat n)
  end.

(** [l[i]] with Python's negative indices. *)
Definition py_getitem {A} (l : list A) (i : Z) : M A :=
  let n := Z.of_nat (List.length l) in
  let j := if 0 <=? i then i else n + i in
  if j <? 0 then raise IndexError
  else match nth_error l (Z.to_nat j) with
       | Some a => ret a
       | None => raise IndexError
       end.

Definition increment_song : M unit :=
  b <- is_playing ;;
  when (negb b)
    (sel <- gets selected ;;
     n <- gets (fun s => List.length (songs s)) ;;
     v <- py_mod (sel + 1) n ;;
     modify (with_selected v) ;;
     update_display).

Definition decrement_song : M unit :=
  b <- is_playing ;;
  when (negb b)
    (sel <- gets selected ;;
     n <- gets (fun s => List.length (songs s)) ;;
     v <- py_mod (sel - 1) n ;;
     modify (with_selected v) ;;
     update_display).

Definition toggle_song (index : option Z) : M unit :=
  match index with
  | Some i =>
      n <- gets (fun s => List.length (songs s)) ;;
      v <- py_mod i n ;;
      modify (with_selected v)
  | None => ret tt
  end ;;
  b <- is_playing ;;
  (if b then stop
   else
     sel <- gets selected ;;
     l <- gets songs ;;
     sg <- py_getitem l sel ;;
     play (PySong sg) ;; ret tt) ;;
  update_display.

(* ------------------------------------------------------------------ *)
(** ** What happens around the engine *)

(** What the rest of the program does between two steps of the engine:
    calls of the engine's interface, the encoder callbacks, the end of the
    waveform in the Audio Channel, and time passing. *)
Inductive Ext :=
| call_stop
| call_play (o : pyobj)
| click (index : option Z)
| turn_up
| turn_down
| audio_finished
| elapse (us : Z).

Definition advance (us : Z) : M unit :=
  modify (with_world (fun w => set_clock (clock w + us) w)).

Definition ext (e : Ext) : M unit :=
  match e with
  | call_stop => stop
  | call_play o => play o ;; ret tt
  | click i => toggle_song i
  | turn_up => increment_song
  | turn_down => decrement_song
  | audio_finished => modify (with_world (set_streaming None))
  | elapse us => advance us
  end.

Fixpoint exts (es : list Ext) : M unit :=
  match es with
  | [] => ret tt
  | e :: es' => ext e ;; exts es'
  end.

(** One entry of the schedule per event pulled by [update]: the running
    time spent before the clock is read, and, if the coroutine then sleeps,
    what the other tasks do meanwhile and by how much the wake-up is late. *)
Record Gap := mkGap {
  run_us : Z;
  late_us : Z;
  others : list Ext
}.

Definition no_gap : Gap := mkGap 0 0 [].

(** [await asyncio.sleep(delay / 1000000)]: the other tasks run, and the
    coroutine resumes no earlier than [delay] microseconds later. *)
Definition sleep (delay : Z) (g : Gap) : M unit :=
  t0 <- monotonic_us ;;
  call (sleep_us delay) ;;
  exts (others g) ;;
  t1 <- monotonic_us ;;
  modify (with_world (set_clock (Z.max t1 (t0 + delay) + late_us g))).

(* ------------------------------------------------------------------ *)
(** ** SongPlayer.update *)

(** The [if / elif] chain on [event.status]. *)
Definition dispatch (c : nat) (event : MidiEvent) : M unit :=
  if status event =? NOTE_ON then
    midi_call c (send_note_on (note event) (velocity event) (channel event))
  else if status event =? NOTE_OFF then
    midi_call c (send_note_off (note event) (channel event))
  else if status event =? CONTROL_CHANGE then
    midi_call c (send_control_change (control event) (value event) (channel event))
  else if status event =? PROGRAM_CHANGE then
    midi_call c (send_program_change (program event) (channel event))
  else ret tt.

(** Replace the content of generator [c]. *)
Fixpoint store {A} (l : list A) (c : nat) (v : A) : list A :=
  match l, c with
  | [], _ => []
  | _ :: l', O => v :: l'
  | x :: l', S c' => x :: store l' c' v
  end.

(** [for event in self.midi_track: ...], on the events [evs] that generator
    [c] still holds, with [midi_time] accumulated so far. *)
Fixpoint midi_loop (c : nat) (evs : list MidiEvent) (midi_time : Z)
         (sched : list Gap) : M unit :=
  match evs with
  | [] => ret tt
  | event :: rest =>
      let g := hd no_gap sched in
      modify (with_world (fun w => set_cursors (store (cursors w) c rest) w)) ;;
      advance (run_us g) ;;
      let midi_time := midi_time + delta_us event in
      now <- monotonic_us ;;
      st <- self start_time ;;
      let current_time := now - st in
      let delay := midi_time - current_time in
      when (0 <? delay) (sleep delay g) ;;
      mp <- self midi_playing ;;
      if negb mp then ret tt
      else dispatch c event ;; midi_loop c rest midi_time (tl sched)
  end.

Definition update (sched : list Gap) : M unit :=
  sg <- self song ;;
  match sg with
  | None => ret tt
  | Some sg =>
      tr <- self midi_track ;;
      match Song.has_midi sg, tr with
      | true, Some c =>
          assign (set_midi_playing true) ;;
          evs <- gets (fun s => nth c (cursors (world s)) []) ;;
          midi_loop c evs 0 sched ;;
          assign (set_midi_playing false)
      | _, _ => ret tt
      end ;;
      ap <- self audio_playing ;;
      ia <- audio.is_playing ;;
      when (ap && negb ia) (assign (set_audio_playing false)) ;;
      mp <- self midi_playing ;;
      ap <- self audio_playing ;;
      when (negb mp && negb ap) stop
  end.

(* ------------------------------------------------------------------ *)
(** ** Runs of the program *)

(** The task driver awaits [update] before calling it again; between two
    calls the rest of the program acts. *)
Inductive Act :=
| tick (sched : list Gap)
| other (e : Ext).

Definition act (a : Act) : M unit :=
  match a with
  | tick sched => update sched
  | other e => ext e
  end.

Fixpoint run (acts : list Act) : M unit :=
  match acts with
  | [] => ret tt
  | a :: acts' => act a ;; run acts'
  end.

(** The state right after the module has been loaded: a fresh player, the
    first song selected, nothing open, nothing streaming. *)
Definition boot (d : Disk) (lv : Q) (catalog : list Song.t) : Sys :=
  mkSys SongPlayer.init (mkWorld 0 d [] 0 None [] []) lv 0 catalog.

(** The calls of a history, without their time stamps. *)
Definition calls (s : Sys) : list Call := map snd (history (world s)).

(* ------------------------------------------------------------------ *)
(** ** Vocabulary of the statements *)

Unset Implicit Arguments.

(** The engine state a caller can observe through [is_playing]. *)
Definition idle (s : Sys) : Prop := song (player s) = None.

(** Two states that differ at most by their history. *)
Definition same_state (s s' : Sys) : Prop :=
  player s' = player s /\
  clock (world s') = clock (world s) /\
  disk (world s') = disk (world s) /\
  open_files (world s') = open_files (world s) /\
  next_fd (world s') = next_fd (world s) /\
  streaming (world s') = streaming (world s) /\
  cursors (world s') = cursors (world s) /\
  level s' = level s /\ selected s' = selected s /\ songs s' = songs s.

(** The resources of a session are exactly those the player refers to:
    the only open file is the one in [self.audio_file], and an idle player
    holds no file, has no active MIDI segment, and the Audio Channel is
    silent. *)
Definition coherent (s : Sys) : Prop :=
  open_files (world s) =
    match audio_file (player s) with Some fd => [fd] | None => [] end
  /\ (forall fd, audio_file (player s) = Some fd -> (fd < next_fd (world s))%nat)
  /\ (song (player s) = None ->
      audio_file (player s) = None /\ midi_playing (player s) = false
      /\ streaming (world s) = None).

(** The calls [stop] makes in state [s]. *)
Definition closing (s : Sys) : list Call :=
  audio_stop ::
  match audio_file (player s) with
  | Some fd => [file_close fd]
  | None => []
  end.

(** Calls that open or start an asset. *)
Definition opening_call (c : Call) : Prop :=
  match c with
  | midi_open _ _ | file_open _ _ | audio_configure _ _ _
  | audio_set_level _ | audio_play _ => True
  | _ => False
  end.

(** [m] keeps the property [P], whatever its outcome. *)
Definition preserves {A} (P : Sys -> Prop) (m : M A) : Prop :=
  forall s, P s -> P (exec m s).

(** A small catalogue for the examples: an audio-only song, a MIDI-only
    song whose fourth event is of a kind [update] ignores, a song with both
    assets, and a song whose audio file cannot be decoded. *)
Definition demo_event (delta st n : Z) : MidiEvent :=
  mkEvent delta st 0 n 100 0 0 0.

Definition demo_events : list MidiEvent :=
  [demo_event 1000 NOTE_ON 60; demo_event 1000 NOTE_ON 64;
   demo_event 2000 NOTE_OFF 60; demo_event 3000 255 0;
   demo_event 500 NOTE_ON 67].

Definition demo_disk : Disk :=
  mkDisk
    (fun p => if String.eqb p "/sd/a.wav" then Wave 22050 2 16
              else if String.eqb p "/sd/bad.wav" then BadWave
              else NoFile)
    (fun p => if String.eqb p "/sd/m.mid" then Some demo_events else None).

Definition song_a : Song.t := Song.mk 1 None (Some "/sd/a.wav"%string) None "a".
Definition song_m : Song.t := Song.mk 2 None None (Some "/sd/m.mid"%string) "m".
Definition song_am : Song.t :=
  Song.mk 3 None (Some "/sd/a.wav"%string) (Some "/sd/m.mid"%string) "am".
Definition song_bad : Song.t :=
  Song.mk 4 None (Some "/sd/bad.wav"%string) (Some "/sd/m.mid"%string) "bad".
Definition song_gone : Song.t :=
  Song.mk 5 None (Some "/sd/gone.wav"%string) None "gone".

Definition demo : Sys := boot demo_disk (1 # 2) [song_a; song_m; song_am].

(* ------------------------------------------------------------------ *)
(** ** Vocabulary of the MIDI loop *)

(** The calls the [if / elif] chain of [update] makes for one event of
    generator [c]: one MIDI message for the four kinds it knows, none for
    any other. *)
Definition sent (c : nat) (event : MidiEvent) : list Call :=
  if status event =? NOTE_ON then
    [midi_send c (send_note_on (note event) (velocity event) (channel event))]
  else if status event =? NOTE_OFF then
    [midi_send c (send_note_off (note event) (channel event))]
  else if status event =? CONTROL_CHANGE then
    [midi_send c (send_control_change (control event) (value event)
                    (channel event))]
  else if status event =? PROGRAM_CHANGE then
    [midi_send c (send_program_change (program event) (channel event))]
  else [].

(** The MIDI messages of a history, in the order they were sent. *)
Definition sends_of (h : list (Z * Call)) : list Call :=
  flat_map (fun tk => match snd tk with
                      | midi_send _ _ => [snd tk]
                      | _ => []
                      end) h.

(** A schedule in which no other task acts while the coroutine sleeps. *)
Definition quiet (sched : list Gap) : Prop :=
  Forall (fun g => others g = []) sched.

(** The pacing rule in the words of the specification: for each event, in
    file order, wait = midi_time - elapsed; when wait > 0 suspend for wait
    microseconds, then dispatch; otherwise dispatch at once.  [now] is the
    clock and [start] the session's start time; the result is the stamped
    calls, one after the other. *)
Fixpoint paced (c : nat) (evs : list MidiEvent) (midi_time start now : Z)
         (sched : list Gap) : list (Z * Call) :=
  match evs with
  | [] => []
  | event :: rest =>
      let g := hd no_gap sched in
      let now := now + run_us g in
      let midi_time := midi_time + delta_us event in
      let wait := midi_time - (now - start) in
      if 0 <? wait then
        (now, sleep_us wait) ::
        map (pair (now + wait + late_us g)) (sent c event) ++
        paced c rest midi_time start (now + wait + late_us g) (tl sched)
      else
        map (pair now) (sent c event) ++
        paced c rest midi_time start now (tl sched)
  end.

(** The clock once the events have been paced that way. *)
Fixpoint paced_clock (evs : list MidiEvent) (midi_time start now : Z)
         (sched : list Gap) : Z :=
  match evs with
  | [] => now
  | event :: rest =>
      let g := hd no_gap sched in
      let now := now + run_us g in
      let midi_time := midi_time + delta_us event in
      let wait := midi_time - (now - start) in
      if 0 <? wait then
        paced_clock rest midi_time start (now + wait + late_us g) (tl sched)
      else paced_clock rest midi_time start now (tl sched)
  end.

(** What generator [c] holds once the loop has run over [evs]. *)
Definition drained (l : list (list MidiEvent)) (c : nat)
           (evs : list MidiEvent) : list (list MidiEvent) :=
  match evs with
  | [] => l
  | _ => store l c []
  end.

(** The state the loop ends in when it is left alone. *)
Definition after_paced (c : nat) (evs : list MidiEvent) (midi_time : Z)
           (sched : list Gap) (s : Sys) : Sys :=
  let w := world s in
  let st := start_time (player s) in
  mkSys (player s)
        (mkWorld (paced_clock evs midi_time st (clock w) sched) (disk w)
                 (open_files w) (next_fd w) (streaming w)
                 (drained (cursors w) c evs)
                 (history w ++ paced c evs midi_time st (clock w) sched))
        (level s) (selected s) (songs s).

(** Sum of the delta times of a run of events, whatever their kind. *)
Definition total_delta (evs : list MidiEvent) : Z :=
  fold_right Z.add 0 (map delta_us evs).

(** The time an event is due: the session's start plus the delta times of
    every event pulled up to and including it. *)
Definition due (start midi_time : Z) (pre : list MidiEvent) (e : MidiEvent) : Z :=
  start + midi_time + total_delta pre + delta_us e.

(** The engine right before the loop of its first update(), [late] micro-
    seconds after play(sg). *)
Definition entering_loop (sg : Song.t) (late : Z) : Sys :=
  exec (assign (set_midi_playing true))
       (exec (run [other (call_play (PySong sg)); other (elapse late)]) demo).

(* ------------------------------------------------------------------ *)
(** ** Vocabulary of cancellation *)

(** Where a generator stands in a history: not yet created, created and not
    stopped since, or stopped. *)
Inductive Phase := unopened | live | dead.

Definition next_phase (c : nat) (p : Phase) (k : Call) : Phase :=
  match k with
  | midi_open _ c' => if Nat.eqb c' c then live else p
  | audio_stop => match p with live => dead | _ => p end
  | _ => p
  end.

Definition phase_from (c : nat) (p : Phase) (h : list Call) : Phase :=
  fold_left (next_phase c) h p.

(** Does the history [h], read from phase [p], send an event of generator
    [c] after a stop() that follows the creation of [c]?  Every stop() calls
    audio.stop() first, so the [audio_stop] entries are the stops. *)
Fixpoint sends_after_stop (c : nat) (p : Phase) (h : list Call) : bool :=
  match h with
  | [] => false
  | k :: h' =>
      match k, p with
      | midi_send c' _, dead => Nat.eqb c' c
      | _, _ => false
      end
      || sends_after_stop c (next_phase c p k) h'
  end.

(** Generator [c] is the one the next update() would iterate. *)
Definition track_live (c : nat) (p : SongPlayer.t) : bool :=
  match song p, midi_track p with
  | Some sg, Some c' => Song.has_midi sg && Nat.eqb c' c
  | _, _ => false
  end.

(** What holds of generator [c] between two steps of a run: nothing of it
    was sent after a stop, a generator not yet created has no history, and a
    stopped generator is not the one update() would iterate. *)
Definition settled (c : nat) (s : Sys) : Prop :=
  sends_after_stop c unopened (calls s) = false /\
  ((List.length (cursors (world s)) <= c)%nat ->
   phase_from c unopened (calls s) = unopened) /\
  (phase_from c unopened (calls s) = dead -> track_live c (player s) = false).

(** What holds of generator [c] while the loop iterates generator [k]: as
    long as [midi_playing] is set, the generator iterated was not stopped. *)
Definition running (c k : nat) (s : Sys) : Prop :=
  settled c s /\
  (k = c -> midi_playing (player s) = true ->
   phase_from c unopened (calls s) <> dead).

(** What holds of generator [c] right after a stop(). *)
Definition stopped (c : nat) (s : Sys) : Prop :=
  settled c s /\ midi_playing (player s) = false /\
  song (player s) = None /\
  phase_from c unopened (calls s) <> live.

(** [s'] differs from [s] by the calls [h] and by nothing the cancellation
    argument looks at. *)
Definition framed (h : list Call) (s s' : Sys) : Prop :=
  calls s' = calls s ++ h /\
  List.length (cursors (world s')) = List.length (cursors (world s)) /\
  song (player s') = song (player s) /\
  midi_track (player s') = midi_track (player s) /\
  (midi_playing (player s') = true -> midi_playing (player s) = true).

(** Calls that neither stop, nor create a generator, nor send. *)
Definition neutral (k : Call) : Prop :=
  match k with
  | audio_stop | midi_open _ _ | midi_send _ _ => False
  | _ => True
  end.

(** [m], started where [P] holds, returns [a] in a state where [Q a] holds
    or raises in a state where [E] holds. *)
Definition triple {A} (P : Sys -> Prop) (m : M A) (Q : A -> Sys -> Prop)
           (E : Sys -> Prop) : Prop :=
  forall s, P s ->
            match m s with
            | (Return a, s') => Q a s'
            | (Raise _, s') => E s'
            end.

(** [running], with the loop certain to break at its next check. *)
Definition halted (c k : nat) (s : Sys) : Prop :=
  running c k s /\ midi_playing (player s) = false.

(** [m] keeps [P] when it returns and leaves [E] when it raises. *)
Definition keeps (P E : Sys -> Prop) {A} (m : M A) : Prop :=
  triple P m (fun _ => P) E.

(** The safety property itself, on a state. *)
Definition no_send_after_stop (c : nat) (s : Sys) : Prop :=
  sends_after_stop c unopened (calls s) = false.

(** The loop will break at its next check. *)
Definition flag_down (s : Sys) : Prop := midi_playing (player s) = false.

(** Nothing is claimed of a statement that raises. *)
Definition whatever (s : Sys) : Prop := True.

(** The state of the loop once it has pulled an event: the generator holds
    the rest, and the time the iteration took so far has passed. *)
Definition pulled (k : nat) (rest : list MidiEvent) (g : Gap) (s : Sys) : Sys :=
  exec (advance (run_us g))
       (exec (modify (with_world
                        (fun w => set_cursors (store (cursors w) k rest) w))) s).

(** [delay] as the loop computes it for [event] in that state. *)
Definition wait_for (event : MidiEvent) (midi_time : Z) (s : Sys) : Z :=
  midi_time + delta_us event - (clock (world s) - start_time (player s)).

(* ------------------------------------------------------------------ *)
(** ** Vocabulary of the invariants of a run *)

(** [m], started where [P] holds, returns [a] in a state where [Q a] holds
    or raises [e] in a state where [E e] holds. *)
Definition spec {A} (P : Sys -> Prop) (m : M A) (Q : A -> Sys -> Prop)
           (E : exn -> Sys -> Prop) : Prop :=
  forall s, P s ->
            match m s with
            | (Return a, s') => Q a s'
            | (Raise e, s') => E e s'
            end.

(** The errors of the file system and of the WAV decoder. *)
Definition io_error (e : exn) : Prop :=
  match e with
  | OSError _ | ValueError _ => True
  | _ => False
  end.

(** [selected] is an index of [songs]. *)
Definition in_range (s : Sys) : Prop :=
  0 <= selected s < Z.of_nat (List.length (songs s)).

(** What every state of a run satisfies: the session's resources are
    coherent, the catalogue is the one the program started with and, when it
    is not empty, one of its songs is selected. *)
Definition sound (catalog : list Song.t) (s : Sys) : Prop :=
  coherent s /\ songs s = catalog /\ (catalog <> [] -> in_range s).

(** What holds where a run fails: the resources are still coherent and, when
    there are songs, the error comes from a file. *)
Definition failed (catalog : list Song.t) (e : exn) (s : Sys) : Prop :=
  coherent s /\ songs s = catalog /\ (catalog <> [] -> io_error e).

Definition sane (catalog : list Song.t) {A} (m : M A) : Prop :=
  spec (sound catalog) m (fun _ => sound catalog) (failed catalog).

(** The part of the state the invariants read is the same in [s'] as in
    [s], except that the stream may have ended and [midi_playing] may have
    been cleared. *)
Definition same_resources (s s' : Sys) : Prop :=
  open_files (world s') = open_files (world s) /\
  next_fd (world s') = next_fd (world s) /\
  (streaming (world s') = streaming (world s) \/ streaming (world s') = None) /\
  song (player s') = song (player s) /\
  audio_file (player s') = audio_file (player s) /\
  (midi_playing (player s') = true -> midi_playing (player s) = true) /\
  selected s' = selected s /\ songs s' = songs s.

(** The assets a song names can be opened and decoded. *)
Definition midi_usable (d : Disk) (sg : Song.t) : Prop :=
  match Song.midi_file sg with
  | Some path => midi_asset d path <> None
  | None => True
  end.

Definition audio_usable (d : Disk) (sg : Song.t) : Prop :=
  match Song.audio_file sg with
  | Some path => exists r c b, audio_asset d path = Wave r c b
  | None => True
  end.


(** The state update() ends in when its loop over generator [k] is left
    alone: the loop has run, [midi_playing] is cleared, and the session ends
    unless the audio segment is active and still streams. *)
Definition after_quiet_update (k : nat) (sched : list Gap) (s : Sys) : Sys :=
  let evs := nth k (cursors (world s)) [] in
  let s1 := after_paced k evs 0 sched (with_player (set_midi_playing true) s) in
  let s2 := with_player (set_midi_playing false) s1 in
  if audio_playing (player s) && negb (Song.is_none (streaming (world s)))
  then s2
  else exec stop (with_player (set_audio_playing false) s2).

(** A song whose MIDI file is not on the disk of the examples. *)
Definition song_lost : Song.t :=
  Song.mk 6 None (Some "/sd/a.wav"%string) (Some "/sd/lost.mid"%string) "lost".

(* ------------------------------------------------------------------ *)
(** ** Configuration data and its validation *)

(** What json.load returns.  A float carries its exact value; strings are
    taken to be ASCII text, so that len() counts characters and lower()
    changes the letters A to Z only. *)
#[warnings="-register-all"]
Inductive pyval :=
| VNone
| VBool (b : bool)
| VInt (n : Z)
| VFloat (x : Q)
| VStr (s : string)
| VList (l : list pyval)
| VDict (d : list (string * pyval)).

(** A dict as the list of its items, each key once. *)
Fixpoint assoc (d : list (string * pyval)) (key : string) : option pyval :=
  match d with
  | [] => None
  | (k, v) :: d' => if String.eqb k key then Some v else assoc d' key
  end.

Definition chars (s : string) : list Ascii.ascii := list_ascii_of_string s.
Definition str (l : list Ascii.ascii) : string := string_of_list_ascii l.

(** str.startswith and str.endswith *)
Definition startswith (s pre : string) : bool := String.prefix pre s.

Definition endswith (s suf : string) : bool :=
  let n := String.length s in
  let m := String.length suf in
  (m <=? n)%nat && String.eqb (str (skipn (n - m) (chars s))) suf.

(** str.lower on ASCII text *)
Definition lower_char (a : Ascii.ascii) : Ascii.ascii :=
  let n := Ascii.nat_of_ascii a in
  if ((65 <=? n) && (n <=? 90))%nat then Ascii.ascii_of_nat (n + 32) else a.

Definition lower (s : string) : string := str (map lower_char (chars s)).

(** str.rfind with a one-character argument: the last index of [ch], or -1. *)
Fixpoint rfind_from (ch : Ascii.ascii) (l : list Ascii.ascii) (i last : Z) : Z :=
  match l with
  | [] => last
  | a :: l' => rfind_from ch l' (i + 1) (if Ascii.eqb a ch then i else last)
  end.

Definition rfind (s : string) (ch : Ascii.ascii) : Z :=
  rfind_from ch (chars s) 0 (-1).

(** [s[a:b]] with Python's treatment of negative and oversized bounds. *)
Definition py_bound (n i : Z) : Z :=
  if i <? 0 then Z.max (n + i) 0 else Z.min i n.

Definition py_slice (s : string) (a b : Z) : string :=
  let n := Z.of_nat (String.length s) in
  let a' := py_bound n a in
  let b' := py_bound n b in
  str (firstn (Z.to_nat (b' - a')) (skipn (Z.to_nat a') (chars s))).

(** The functions of class Validation.  A result of [None] stands for an
    exception (TypeError, KeyError, AttributeError). *)
Module Validation.

(** [key in data] *)
Definition valid_key (data : pyval) (key : string) : option bool :=
  match data with
  | VDict d => Some (match assoc d key with Some _ => true | None => false end)
  | VList l =>
      Some (existsb (fun v => match v with
                              | VStr s => String.eqb s key
                              | _ => false
                              end) l)
  | VStr s => Some (match String.index 0 key s with
                    | Some _ => true
                    | None => false
                    end)
  | _ => None
  end.

(** [value[key]] for a string [key] *)
Definition getitem (value : pyval) (key : string) : option pyval :=
  match value with
  | VDict d => assoc d key
  | _ => None
  end.

(** The opening lines the valid_* functions share: with a key, the value
    tested is [value[key]], and a missing key gives False. *)
Definition pick (value : pyval) (key : string) (test : pyval -> option bool)
  : option bool :=
  if (0 <? String.length key)%nat then
    match valid_key value key with
    | Some true =>
        match getitem value key with
        | Some v => test v
        | None => None
        end
    | Some false => Some false
    | None => None
    end
  else test value.

Definition valid_int (value : pyval) (key : string) (min : pyval) : option bool :=
  pick value key (fun v =>
    Some (match v with
          | VInt n => match min with VInt m => m <? n | _ => true end
          | _ => false
          end)).

Definition valid_float (value : pyval) (key : string) (min : pyval)
  : option bool :=
  pick value key (fun v =>
    Some (match v with
          | VFloat x => match min with
                        | VFloat m => negb (Qle_bool x m)
                        | _ => true
                        end
          | _ => false
          end)).

Definition valid_string (value : pyval) (key : string) : option bool :=
  pick value key (fun v =>
    Some (match v with
          | VStr s => (0 <? String.length s)%nat
          | _ => false
          end)).

Definition valid_list (value : pyval) (key : string) : option bool :=
  pick value key (fun v =>
    Some (match v with
          | VList l => (0 <? List.length l)%nat
          | _ => false
          end)).

(** check_ext: for a list of extensions the loop calls Song.check_ext, which
    does not exist, so any list but the empty one raises. *)
Definition check_ext (value : string) (ext : pyval) : option bool :=
  match ext with
  | VList [] => Some false
  | VList (_ :: _) => None
  | VStr e =>
      let e := if startswith e "." then e else String.append "." e in
      if (String.length value <=? String.length e)%nat then Some false
      else if negb (endswith (lower value) (lower e)) then Some false
      else Some true
  | _ => Some false
  end.

Definition sanitize_path (path : string) : string :=
  let path := if startswith path "/" then path else String.append "/" path in
  String.append "/sd" path.

(** check_path; [stat p] tells whether os.stat(p) succeeds. *)
Definition check_path (stat : string -> bool) (path : string) (sanitize : bool)
  : bool :=
  stat (if sanitize then sanitize_path path else path).

Definition valid_path (stat : string -> bool) (value : pyval) (key ext : string)
           (check sanitize : bool) : option bool :=
  pick value key (fun v =>
    match v with
    | VStr p =>
        if negb (0 <? String.length p)%nat then Some false
        else
          match (if (0 <? String.length ext)%nat
                 then check_ext p (VStr ext) else Some true) with
          | None => None
          | Some false => Some false
          | Some true =>
              if check && negb (check_path stat p sanitize) then Some false
              else Some true
          end
    | _ => Some false
    end).

Definition basename (path : pyval) : string :=
  match path with
  | VStr p =>
      if (0 <? String.length p)%nat
      then py_slice p (rfind p "/"%char + 1) (rfind p "."%char)
      else ""
  | _ => ""
  end.

End Validation.

(** Song.valid *)
Definition Song_valid (stat : string -> bool) (data : pyval) : option bool :=
  match data with
  | VDict _ =>
      match Validation.valid_int data "key" (VInt 0) with
      | None => None
      | Some false => Some false
      | Some true =>
          match Validation.valid_path stat data "audio" "wav" true true with
          | None => None
          | Some true => Some true
          | Some false =>
              match Validation.valid_path stat data "midi" "mid" true true with
              | None => None
              | Some b => Some b
              end
          end
      end
  | _ => Some false
  end.

(** [sanitize_path(data[key]) if valid_path(data, key, ext) else None] *)
Definition asset_of (stat : string -> bool) (data : pyval) (key ext : string)
  : option (option string) :=
  match Validation.valid_path stat data key ext true true with
  | None => None
  | Some false => Some None
  | Some true =>
      match Validation.getitem data key with
      | Some (VStr p) => Some (Some (Validation.sanitize_path p))
      | _ => None
      end
  end.

(** Song.__init__; [None] when it raises, and also when data["key"] is not
    an integer, which the record of a song has no place for (the program
    only constructs a Song from data that Song.valid accepts). *)
Definition Song_new (stat : string -> bool) (data : pyval) : option Song.t :=
  match Validation.getitem data "key" with
  | Some (VInt keynum) =>
      match Validation.valid_int data "notenum" (VInt 0),
            asset_of stat data "audio" "wav",
            asset_of stat data "midi" "mid",
            Validation.valid_string data "title" with
      | Some vn, Some audio_file, Some midi_file, Some vt =>
          let midi_note :=
            if vn then match Validation.getitem data "notenum" with
                       | Some (VInt n) => Some n
                       | _ => None
                       end
            else None in
          let fallback :=
            Validation.basename
              (match audio_file, midi_file with
               | Some p, _ => VStr p
               | None, Some p => VStr p
               | None, None => VNone
               end) in
          let title :=
            if vt then match Validation.getitem data "title" with
                       | Some (VStr t) => t
                       | _ => fallback
                       end
            else fallback in
          Some (Song.mk keynum midi_note audio_file midi_file title)
      | _, _, _, _ => None
      end
  | _ => None
  end.

(** The loop that builds the catalogue: entries that are not valid are
    skipped. *)
Fixpoint load_songs (stat : string -> bool) (entries : list pyval)
         (songs : list Song.t) : option (list Song.t) :=
  match entries with
  | [] => Some songs
  | song_data :: rest =>
      match Song_valid stat song_data with
      | None => None
      | Some false => load_songs stat rest songs
      | Some true =>
          match Song_new stat song_data with
          | None => None
          | Some song => load_songs stat rest (songs ++ [song])
          end
      end
  end.

(** How the start of the program ends: sys.exit(), an uncaught exception,
    or a catalogue, with the volume and the MIDI channel the configuration
    sets, if any. *)
Inductive Startup :=
| Exit
| Crash
| Loaded (volume : option Q) (midi_channel : option Z) (songs : list Song.t).

(** [config == False] *)
Definition is_false (config : pyval) : bool :=
  match config with
  | VBool b => negb b
  | VInt n => n =? 0
  | VFloat x => Qeq_bool x 0
  | _ => false
  end.

(** The module's top-level code from the loaded configuration to the
    catalogue; [config] is [VBool false] when the file could not be read. *)
Definition startup (stat : string -> bool) (config : pyval) : Startup :=
  if is_false config then Exit
  else
    match Validation.valid_float config "volume" (VBool false),
          Validation.valid_int config "midi_channel" (VInt 0),
          Validation.valid_list config "songs" with
    | Some vv, Some vc, Some vl =>
        if negb vl then Exit
        else
          match Validation.getitem config "songs" with
          | Some (VList entries) =>
              match load_songs stat entries [] with
              | None => Crash
              | Some [] => Exit
              | Some songs =>
                  Loaded
                    (if vv then match Validation.getitem config "volume" with
                                | Some (VFloat x) => Some x
                                | _ => None
                                end
                     else None)
                    (if vc then match Validation.getitem config "midi_channel" with
                                | Some (VInt n) => Some n
                                | _ => None
                                end
                     else None)
                    songs
              end
          | _ => Crash
          end
    | _, _, _ => Crash
    end.

(** A configuration for the examples. *)
Definition demo_entry (key : Z) (audio : string) : pyval :=
  VDict [("key"%string, VInt key); ("audio"%string, VStr audio)].

Definition demo_config : pyval :=
  VDict [("volume"%string, VFloat (1 # 2));
         ("songs"%string,
          VList [demo_entry 1 "a.wav"; demo_entry 0 "a.wav";
                 demo_entry 2 "/b.WAV"; VInt 3; demo_entry 4 "c.mp3"])].

Definition demo_stat (p : string) : bool :=
  String.eqb p "/sd/a.wav" || String.eqb p "/sd/b.WAV".

(** The song has something to play. *)
Definition has_asset (sg : Song.t) : bool := Song.has_audio sg || Song.has_midi sg.

(** The catalogue in the words of the specification: the songs of the
    entries that are valid, in the order of the entries. *)
Definition songs_of (stat : string -> bool) (entries : list pyval) : list Song.t :=
  flat_map (fun d => match Song_valid stat d, Song_new stat d with
                     | Some true, Some sg => [sg]
                     | _, _ => []
                     end) entries.

(** The character does not occur in the string. *)
Definition without (ch : Ascii.ascii) (s : string) : Prop := ~ In ch (chars s).

(** The extension check_ext compares with: [ext] with its leading dot. *)
Definition dotted (ext : string) : string :=
  if startswith ext "." then ext else String.append "." ext.

(** What valid_path(data, key, ext) asks of the string under [key]: it is
    not empty, has the extension, and the file is on the card. *)
Definition usable_path (stat : string -> bool) (p ext : string) : bool :=
  (0 <? String.length p)%nat &&
  match Validation.check_ext p (VStr ext) with
  | Some true => true
  | _ => false
  end &&
  stat (Validation.sanitize_path p).

Definition usable_entry (stat : string -> bool) (d : list (string * pyval))
           (key ext : string) : bool :=
  match assoc d key with
  | Some (VStr p) => usable_path stat p ext
  | _ => false
  end.

(** None, a bool or a number. *)
Definition scalar (v : pyval) : bool :=
  match v with
  | VNone | VBool _ | VInt _ | VFloat _ => true
  | _ => false
  end.

(** What the program asks of every song of its catalogue. *)
Definition well_formed_song (sg : Song.t) : Prop :=
  0 < Song.keynum sg /\ has_asset sg = true.

(* ------------------------------------------------------------------ *)
(** ** Proof support *)

Ltac open_sys s :=
  let sg := fresh "sg" in let af := fresh "af" in
  destruct s as [[sg af ? ? ? ? ?] [? ? ? ? ? ? ?] ? ? ?].

(** Unfold one more [match] of a Python statement on a variable or on an
    asset lookup. *)
Ltac py_case :=
  match goal with
  | |- context [match audio_asset ?d ?p with _ => _ end] =>
      destruct (audio_asset d p) eqn:?
  | |- context [match midi_asset ?d ?p with _ => _ end] =>
      destruct (midi_asset d p) eqn:?
  | |- context [match ?x with _ => _ end] =>
      is_var x;
      lazymatch type of x with
      | option _ => destruct x
      | bool => destruct x
      | pyobj => destruct x
      end
  end.

Ltac py_run :=
  cbn in *; repeat (first [py_case | rewrite Nat.eqb_refl]; cbn in *).

Lemma preserves_bind {A B} (P : Sys -> Prop) (m : M A) (k : A -> M B) :
  preserves P m -> (forall a, preserves P (k a)) -> preserves P (bind m k).
Proof.
  intros Hm Hk s Hs. unfold exec, bind. specialize (Hm s Hs). unfold exec in Hm.
  destruct (m s) as [[a | e] s']; cbn in *; [apply Hk; exact Hm | exact Hm].
Qed.

Lemma preserves_ret {A} (P : Sys -> Prop) (a : A) : preserves P (ret a).
Proof. intros s Hs; exact Hs. Qed.

Lemma preserves_raise {A} (P : Sys -> Prop) e : preserves P (@raise A e).
Proof. intros s Hs; exact Hs. Qed.

Lemma preserves_gets {A} (P : Sys -> Prop) (f : Sys -> A) : preserves P (gets f).
Proof. intros s Hs; exact Hs. Qed.

Lemma preserves_when (P : Sys -> Prop) b m :
  preserves P m -> preserves P (when b m).
Proof. destruct b; cbn; [auto | intros _; apply preserves_ret]. Qed.

Lemma bind_exec {A B} (m : M A) (k : A -> M B) s a :
  outcome m s = Return a -> exec (bind m k) s = exec (k a) (exec m s).
Proof.
  unfold outcome, exec, bind. destruct (m s) as [[a' | e] s']; cbn; congruence.
Qed.

Lemma bind_outcome {A B} (m : M A) (k : A -> M B) s a :
  outcome m s = Return a -> outcome (bind m k) s = outcome (k a) (exec m s).
Proof.
  unfold outcome, exec, bind. destruct (m s) as [[a' | e] s']; cbn; congruence.
Qed.

Lemma run_pair {A} (m : M A) s : m s = (outcome m s, exec m s).
Proof. unfold outcome, exec. now destruct (m s). Qed.

(** *** stop *)

Lemma stop_returns s : outcome stop s = Return tt.
Proof. open_sys s. destruct af, sg; reflexivity. Qed.

Lemma stop_player s :
  player (exec stop s) =
  set_song None (set_midi_playing false (set_audio_file None (player s))).
Proof. open_sys s. destruct af, sg; reflexivity. Qed.

Lemma stop_history s :
  history (world (exec stop s)) =
  history (world s) ++ map (pair (clock (world s))) (closing s).
Proof.
  open_sys s. destruct af, sg; cbn; rewrite <- ?app_assoc; reflexivity.
Qed.

Lemma stop_world s :
  clock (world (exec stop s)) = clock (world s) /\
  disk (world (exec stop s)) = disk (world s) /\
  next_fd (world (exec stop s)) = next_fd (world s) /\
  streaming (world (exec stop s)) = None /\
  cursors (world (exec stop s)) = cursors (world s) /\
  open_files (world (exec stop s)) =
    match audio_file (player s) with
    | Some fd => filter (fun x => negb (Nat.eqb x fd)) (open_files (world s))
    | None => open_files (world s)
    end.
Proof. open_sys s. destruct af, sg; cbn; auto 10. Qed.

Lemma stop_globals s :
  level (exec stop s) = level s /\ selected (exec stop s) = selected s /\
  songs (exec stop s) = songs s.
Proof. open_sys s. destruct af, sg; cbn; auto. Qed.

Lemma stop_coherent : preserves coherent stop.
Proof.
  intros s. open_sys s. unfold coherent; cbn. intros (Hof & Hfd & Hidle).
  destruct af, sg; cbn in *; subst; cbn; rewrite ?Nat.eqb_refl; cbn;
    repeat split; auto; try discriminate; try (apply Hidle; reflexivity).
Qed.

(** After [stop] nothing of a session is left. *)
Lemma stop_clears s :
  coherent s ->
  idle (exec stop s) /\ open_files (world (exec stop s)) = [] /\
  audio_file (player (exec stop s)) = None /\
  streaming (world (exec stop s)) = None.
Proof.
  open_sys s. unfold coherent, idle; cbn. intros (Hof & _ & _).
  destruct af, sg; cbn in *; subst; cbn; rewrite ?Nat.eqb_refl; auto.
Qed.

(** *** play *)

Lemma play_not_song o s :
  isinstance_Song o = false -> play o s = (Return false, exec stop s).
Proof.
  intros H. destruct o; try discriminate H; unfold play, bind;
    rewrite (run_pair stop s), stop_returns; reflexivity.
Qed.

Lemma play_coherent o : preserves coherent (play o).
Proof.
  intros s. open_sys s. unfold coherent. intros (Hof & Hfd & Hidle).
  cbn in Hof, Hfd, Hidle.
  destruct o as [[k mn afil mfil ti] | | |]; unfold exec, play, stop, bind;
    py_run; subst; cbn; rewrite ?Nat.eqb_refl; cbn;
    (split; [reflexivity |]);
    (split; [first [intros ? [= <-]; lia | intros ? [=]] |]);
    first [discriminate | auto].
Qed.

Lemma stop_idle_effect (s : Sys) :
  coherent s -> idle s ->
  outcome stop s = Return tt /\
  same_state s (exec stop s) /\
  calls (exec stop s) = calls s ++ [audio_stop].
Proof.
  open_sys s. unfold coherent, idle, same_state, calls; cbn.
  intros (Hof & _ & Hidle) ->. destruct (Hidle eq_refl) as (-> & -> & ->).
  cbn. rewrite map_app. cbn. auto 15.
Qed.

(* ------------------------------------------------------------------ *)
(** ** The engine's interface: stop and play *)

(** C8 -- stop() is idempotent: called on an idle engine it changes neither
    the engine nor its collaborators; all it does is call the Audio
    Channel's stop() on a channel that is not streaming. *)
Theorem stop_while_idle_is_noop (s : Sys) :
  coherent s -> idle s ->
  outcome stop s = Return tt /\
  same_state s (exec stop s) /\
  calls (exec stop s) = calls s ++ [audio_stop].
Proof. intros Hc Hi. apply stop_idle_effect; assumption. Qed.

Lemma stop_while_idle_is_noop_witness :
  outcome stop demo = Return tt /\
  same_state demo (exec stop demo) /\
  calls (exec stop demo) = calls demo ++ [audio_stop].
Proof.
  apply (stop_while_idle_is_noop demo).
  - unfold coherent; cbn. repeat split; auto; discriminate.
  - reflexivity.
Defined.

(** C3 (as stated) fails: on an engine that is playing, play(None) returns
    false but has torn the session down. *)
Lemma play_invalid_has_side_effects :
  let s := exec (play (PySong song_a)) demo in
  isinstance_Song PyNone = false /\
  outcome (play PyNone) s = Return false /\
  song (player s) = Some song_a /\
  song (player (exec (play PyNone) s)) = None /\
  open_files (world (exec (play PyNone) s)) <> open_files (world s) /\
  streaming (world (exec (play PyNone) s)) <> streaming (world s).
Proof. cbv. repeat split; discriminate. Qed.

(** C3 (amended) -- for an argument that is not a Song, play returns false
    and does exactly what stop() does, no more: the session, if any, is torn
    down; on an idle engine nothing changes. *)
Theorem play_invalid_is_stop (o : pyobj) (s : Sys) :
  isinstance_Song o = false ->
  outcome (play o) s = Return false /\
  exec (play o) s = exec stop s /\
  (coherent s -> idle s -> same_state s (exec (play o) s)).
Proof.
  intros H. unfold outcome, exec at 1 3. rewrite (play_not_song _ s H). cbn.
  repeat split; try reflexivity;
    destruct (stop_idle_effect s H0 H1) as (_ & Hs & _); apply Hs.
Qed.

Lemma play_invalid_is_stop_witness :
  outcome (play (PyInt 7)) demo = Return false /\
  exec (play (PyInt 7)) demo = exec stop demo /\
  (coherent demo -> idle demo -> same_state demo (exec (play (PyInt 7)) demo)).
Proof. apply (play_invalid_is_stop (PyInt 7) demo). reflexivity. Defined.

(** C4 (as stated) fails: with an audio file that cannot be decoded, or that
    cannot be opened, play does not return true: the exception reaches the
    caller. *)
Lemma play_audio_failure_raises :
  outcome (play (PySong song_bad)) demo = Raise (ValueError "/sd/bad.wav") /\
  outcome (play (PySong song_gone)) demo = Raise (OSError "/sd/gone.wav") /\
  outcome (play (PySong song_bad)) demo <> Return true.
Proof. cbv. repeat split; discriminate. Qed.

(** C4 (amended) -- when the audio asset of a song cannot be opened or
    decoded, play raises; by then the song is the current one and its MIDI
    generator, if the song has one that opens, is in place; the Audio
    Channel has not been started, the audio flag and the start time are as
    they were. *)
Theorem play_audio_failure_propagates (sg : Song.t) (path : string) (s : Sys) :
  Song.audio_file sg = Some path ->
  (forall r c b, audio_asset (disk (world s)) path <> Wave r c b) ->
  let s' := exec (play (PySong sg)) s in
  (exists e, outcome (play (PySong sg)) s = Raise e) /\
  song (player s') = Some sg /\
  streaming (world s') = None /\
  audio_playing (player s') = audio_playing (player s) /\
  start_time (player s') = start_time (player s) /\
  (forall mpath evs,
      Song.midi_file sg = Some mpath ->
      midi_asset (disk (world s)) mpath = Some evs ->
      midi_track (player s') = Some (List.length (cursors (world s))) /\
      nth (List.length (cursors (world s))) (cursors (world s')) [] = evs).
Proof.
  open_sys s. destruct sg as [k mn afil mfil ti]. cbn. intros -> Hbad.
  unfold exec, outcome, play, stop, bind.
  py_run; try (exfalso; eapply Hbad; eassumption);
    try (exfalso; congruence);
    (split; [eexists; reflexivity |]);
    do 4 (split; [reflexivity |]);
    intros mpath evs Hm Ha; try discriminate Hm;
    injection Hm as <-; try congruence;
    (split; [reflexivity |]);
    rewrite app_nth2, Nat.sub_diag by lia; cbn; congruence.
Qed.

Lemma play_audio_failure_propagates_witness :
  let s' := exec (play (PySong song_bad)) demo in
  (exists e, outcome (play (PySong song_bad)) demo = Raise e) /\
  song (player s') = Some song_bad /\
  streaming (world s') = None /\
  audio_playing (player s') = audio_playing (player demo) /\
  start_time (player s') = start_time (player demo) /\
  (forall mpath evs,
      Song.midi_file song_bad = Some mpath ->
      midi_asset (disk (world demo)) mpath = Some evs ->
      midi_track (player s') = Some (List.length (cursors (world demo))) /\
      nth (List.length (cursors (world demo))) (cursors (world s')) [] = evs).
Proof.
  apply (play_audio_failure_propagates song_bad "/sd/bad.wav" demo).
  - reflexivity.
  - intros r c b; cbn; discriminate.
Defined.

(** C5 -- play(songB) on an engine that still plays songA first stops
    songA: the Audio Channel is halted and songA's file is closed before any
    call that opens or starts an asset of songB; afterwards songA's handle
    is no longer open, the only stream is songB's, and the engine again
    holds exactly the resources of one session. *)
Theorem play_releases_previous_session (s : Sys) (sgB : Song.t) :
  coherent s ->
  let s' := exec (play (PySong sgB)) s in
  exists opens,
    calls s' = calls s ++ closing s ++ opens /\
    Forall opening_call opens /\
    (forall fd, audio_file (player s) = Some fd ->
                ~ In fd (open_files (world s'))) /\
    (forall w, streaming (world s') = Some w ->
               audio_wav (player s') = Some w /\ In (audio_play w) opens) /\
    coherent s'.
Proof.
  intros Hc s'.
  enough (exists opens,
    calls s' = calls s ++ closing s ++ opens /\
    Forall opening_call opens /\
    (forall fd, audio_file (player s) = Some fd ->
                ~ In fd (open_files (world s'))) /\
    (forall w, streaming (world s') = Some w ->
               audio_wav (player s') = Some w /\ In (audio_play w) opens))
    as (opens & H1 & H2 & H3 & H4)
    by (exists opens; split; [exact H1 |]; split; [exact H2 |];
        split; [exact H3 |]; split; [exact H4 |];
        apply play_coherent; exact Hc).
  subst s'. open_sys s. destruct sgB as [k mn afil mfil ti].
  destruct Hc as (Hof & Hfd & _). cbn in Hof, Hfd.
  unfold exec, play, stop, bind, calls.
  py_run; subst; cbn; rewrite ?Nat.eqb_refl; cbn;
    rewrite ?map_app, <- ?app_assoc; cbn;
    (eexists; split; [reflexivity |]);
    (split; [repeat constructor |]);
    (split; [first [ intros ? [= <-]; cbn;
                     first [ tauto
                           | pose proof (Hfd _ eq_refl); intros [-> | []]; lia ]
                   | intros ? [=] ] |]);
    first [ intros ? [= <-]; cbn; auto 10 | intros ? [=] ].
Qed.

Lemma play_releases_previous_session_witness :
  let s := exec (play (PySong song_a)) demo in
  let s' := exec (play (PySong song_am)) s in
  exists opens,
    calls s' = calls s ++ closing s ++ opens /\
    Forall opening_call opens /\
    (forall fd, audio_file (player s) = Some fd ->
                ~ In fd (open_files (world s'))) /\
    (forall w, streaming (world s') = Some w ->
               audio_wav (player s') = Some w /\ In (audio_play w) opens) /\
    coherent s'.
Proof.
  apply (play_releases_previous_session (exec (play (PySong song_a)) demo)
           song_am).
  unfold coherent; cbn. repeat split; try discriminate.
  intros fd [= <-]; lia.
Defined.

(** play leaves [audio_playing] alone when the song has no audio asset. *)
Lemma play_midi_only_keeps_audio_flag (sg : Song.t) (s : Sys) :
  Song.audio_file sg = None ->
  audio_playing (player (exec (play (PySong sg)) s)) = audio_playing (player s).
Proof.
  open_sys s. destruct sg as [k mn afil mfil ti]. cbn. intros ->.
  unfold exec, play, stop, bind. py_run; reflexivity.
Qed.

(** C6 (code at the failing input) -- a MIDI-only song played right after an
    audio song starts its session with the audio flag still set: stop()
    resets [midi_playing] but not [audio_playing]. *)
Theorem midi_only_session_inherits_audio_flag :
  let s := exec (run [other (call_play (PySong song_a));
                      other (call_play (PySong song_m))]) demo in
  Song.has_audio song_m = false /\
  song (player s) = Some song_m /\
  streaming (world s) = None /\
  audio_playing (player s) = true.
Proof. cbv. auto. Qed.






(* ------------------------------------------------------------------ *)
(** ** The selected song *)

(** C9 (as stated) fails: toggle_song with an index changes the selection
    while a song is playing. *)
Lemma toggle_song_selects_while_playing :
  let s := exec (play (PySong song_a)) demo in
  outcome is_playing s = Return true /\
  selected s = 0 /\
  selected (exec (toggle_song (Some 2)) s) = 2.
Proof. cbv. auto. Qed.

Lemma play_globals o s :
  selected (exec (play o) s) = selected s /\ songs (exec (play o) s) = songs s.
Proof.
  open_sys s.
  destruct o as [[kn mn afil mfil ti] | | |]; unfold exec, play, stop, bind;
    py_run; auto.
Qed.

Lemma is_playing_result s :
  is_playing s =
  (Return (match song (player s) with Some _ => true | None => false end), s).
Proof.
  unfold is_playing, bind, self, gets. destruct (song (player s)); reflexivity.
Qed.

(** C9 (amended) -- while a song is playing, increment_song, decrement_song
    and toggle_song() leave the selection as it is; toggle_song(index) sets
    it to index % len(songs), whether a song is playing or not. *)
Theorem selection_while_playing (s : Sys) :
  (outcome is_playing s = Return true ->
   selected (exec increment_song s) = selected s /\
   selected (exec decrement_song s) = selected s /\
   selected (exec (toggle_song None) s) = selected s) /\
  (forall i, songs s <> [] ->
             selected (exec (toggle_song (Some i)) s) =
             i mod Z.of_nat (List.length (songs s))).
Proof.
  split.
  - open_sys s. cbn. destruct sg as [sg0 |]; cbn; [intros _ | discriminate].
    repeat split; destruct af; reflexivity.
  - intros i Hne. destruct s as [p w lv sel sgs]. cbn in Hne |- *.
    destruct sgs as [| x l]; [congruence |].
    set (v := i mod Z.of_nat (List.length (x :: l))).
    set (s1 := mkSys p w lv v (x :: l)).
    assert (Ht : exec (toggle_song (Some i)) (mkSys p w lv sel (x :: l)) =
                 exec (b <- is_playing ;;
                       (if b then stop
                        else
                          sel <- gets selected ;;
                          l <- gets songs ;;
                          sg <- py_getitem l sel ;;
                          play (PySong sg) ;; ret tt) ;;
                       update_display) s1) by reflexivity.
    rewrite Ht. clear Ht.
    assert (Hv : selected s1 = v) by reflexivity. clearbody s1.
    unfold exec. unfold bind at 1. rewrite is_playing_result. cbv beta iota.
    destruct (song (player s1)) as [sg |].
    + unfold bind at 1.
      pose proof (stop_globals s1) as (_ & Hsel & _). unfold exec in Hsel.
      destruct (stop s1) as [[[] | e] s2]; cbn in *; congruence.
    + unfold bind at 1, bind at 1, gets at 1. cbv beta iota.
      unfold bind at 1, gets at 1. cbv beta iota.
      unfold bind at 1, py_getitem.
      destruct (_ <? 0); [cbn; exact Hv |].
      destruct (nth_error _ _) as [sg |]; [| cbn; exact Hv].
      unfold ret at 1. cbv beta iota. unfold bind at 1.
      pose proof (play_globals (PySong sg) s1) as (Hsel & _).
      unfold exec in Hsel.
      destruct (play (PySong sg) s1) as [[b | e] s2]; cbn in *; congruence.
Qed.

Lemma selection_while_playing_witness :
  let s := exec (play (PySong song_a)) demo in
  (selected (exec increment_song s) = selected s /\
   selected (exec decrement_song s) = selected s /\
   selected (exec (toggle_song None) s) = selected s) /\
  selected (exec (toggle_song (Some 5)) s) = 2 /\
  selected (exec (toggle_song (Some (-1))) demo) = 2.
Proof.
  intros s. split; [| split].
  - apply (proj1 (selection_while_playing s)). reflexivity.
  - apply (proj2 (selection_while_playing s) 5). discriminate.
  - apply (proj2 (selection_while_playing demo) (-1)). discriminate.
Defined.

(* ------------------------------------------------------------------ *)
(** ** The MIDI loop left alone *)

Lemma dispatch_sent c event s :
  dispatch c event s =
  (Return tt,
   with_world (fun w => set_history
                          (history w ++ map (pair (clock w)) (sent c event)) w) s).
Proof.
  unfold dispatch, sent.
  destruct s as [p [ck dk ofs nfd strm cur hist] lv sel sgs].
  destruct (status event =? NOTE_ON); [reflexivity |].
  destruct (status event =? NOTE_OFF); [reflexivity |].
  destruct (status event =? CONTROL_CHANGE); [reflexivity |].
  destruct (status event =? PROGRAM_CHANGE); [reflexivity |].
  unfold ret, with_world, set_history. cbn. rewrite app_nil_r. reflexivity.
Qed.

Lemma store_store {A} (l : list A) c (a b : A) :
  store (store l c a) c b = store l c b.
Proof.
  revert c; induction l as [| x l IH]; intros [| c]; cbn; try reflexivity.
  now rewrite IH.
Qed.

Lemma drained_store l c e rest :
  drained (store l c rest) c rest = drained l c (e :: rest).
Proof. destruct rest; cbn; [reflexivity | apply store_store]. Qed.

Lemma quiet_hd sched : quiet sched -> others (hd no_gap sched) = [].
Proof. intros [| g l Hg _]; [reflexivity | exact Hg]. Qed.

Lemma quiet_tl sched : quiet sched -> quiet (tl sched).
Proof. intros [| g l _ Hl]; [constructor | exact Hl]. Qed.

Lemma midi_loop_quiet c evs : forall mt sched s,
  quiet sched ->
  midi_playing (player s) = true ->
  midi_loop c evs mt sched s = (Return tt, after_paced c evs mt sched s).
Proof.
  induction evs as [| e rest IH]; intros mt sched s Hq Hp.
  - destruct s as [p [ck dk ofs nfd strm cur hist] lv sel sgs].
    cbn. unfold ret, after_paced. cbn. now rewrite app_nil_r.
  - pose proof (quiet_hd sched Hq) as Hg. pose proof (quiet_tl sched Hq) as Hq'.
    destruct s as [[sg af aw ap tr mp st] [ck dk ofs nfd strm cur hist] lv sel sgs].
    cbn in Hp; subst mp.
    unfold after_paced; cbn.
    unfold bind, modify, advance, with_world, monotonic_us, self, gets, when.
    cbn.
    destruct (0 <? mt + delta_us e - (ck + run_us (hd no_gap sched) - st)) eqn:Hw.
    + unfold sleep, bind, monotonic_us, gets, call, modify, with_world. cbn.
      rewrite Hg. cbn. unfold ret. cbn.
      rewrite dispatch_sent. cbn.
      rewrite IH by (cbn; auto). unfold after_paced. cbn.
      apply Z.ltb_lt in Hw.
      rewrite Z.max_r by lia.
      rewrite (drained_store _ _ e), <- !app_assoc. reflexivity.
    + unfold ret. cbn. rewrite dispatch_sent. cbn.
      rewrite IH by (cbn; auto). unfold after_paced. cbn.
      rewrite (drained_store _ _ e), <- !app_assoc. reflexivity.
Qed.

Lemma sends_of_app h1 h2 : sends_of (h1 ++ h2) = sends_of h1 ++ sends_of h2.
Proof. apply flat_map_app. Qed.

Lemma sends_of_sent c e t : sends_of (map (pair t) (sent c e)) = sent c e.
Proof.
  unfold sent.
  repeat match goal with
         | |- context [if ?b then _ else _] => destruct b
         end; reflexivity.
Qed.

Lemma sends_of_paced c evs : forall mt st now sched,
  sends_of (paced c evs mt st now sched) = flat_map (sent c) evs.
Proof.
  induction evs as [| e rest IH]; intros; cbn; [reflexivity |].
  destruct (0 <? _); cbn -[sends_of];
    [change (sends_of (?x :: ?l)) with (sends_of ([x] ++ l)) |];
    rewrite !sends_of_app, sends_of_sent, IH; reflexivity.
Qed.

Lemma paced_now c e rest mt st now g sched :
  mt + delta_us e - (now + run_us g - st) <= 0 ->
  paced c (e :: rest) mt st now (g :: sched) =
  map (pair (now + run_us g)) (sent c e) ++
  paced c rest (mt + delta_us e) st (now + run_us g) sched.
Proof.
  intros H. cbn. apply Z.ltb_ge in H. rewrite H. reflexivity.
Qed.

Lemma paced_later c e rest mt st now g sched :
  0 < mt + delta_us e - (now + run_us g - st) ->
  paced c (e :: rest) mt st now (g :: sched) =
  (now + run_us g, sleep_us (mt + delta_us e - (now + run_us g - st))) ::
  map (pair (now + run_us g + (mt + delta_us e - (now + run_us g - st))
             + late_us g)) (sent c e) ++
  paced c rest (mt + delta_us e) st
        (now + run_us g + (mt + delta_us e - (now + run_us g - st)) + late_us g)
        sched.
Proof.
  intros H. cbn. apply Z.ltb_lt in H. rewrite H. reflexivity.
Qed.

(** C1 -- left alone with [midi_playing] set, the loop of update() returns,
    and what it adds to the history is the pacing rule applied to the events
    in file order: for each event wait = midi_time - (now - start_time); if
    wait > 0 a sleep of wait microseconds and then the dispatch, otherwise the
    dispatch at once; the MIDI messages sent are those of the events in file
    order.  In particular, 5000 microseconds late against three events due at
    1000, 2000 and 4000, the three are sent one after the other without a
    sleep, and the first sleep is the wait for the fourth. *)
Theorem midi_loop_paces_events (c : nat) (evs : list MidiEvent) (mt : Z)
        (sched : list Gap) (s : Sys) :
  quiet sched ->
  midi_playing (player s) = true ->
  let s' := exec (midi_loop c evs mt sched) s in
  let st := start_time (player s) in
  let now := clock (world s) in
  outcome (midi_loop c evs mt sched) s = Return tt /\
  history (world s') = history (world s) ++ paced c evs mt st now sched /\
  sends_of (paced c evs mt st now sched) = flat_map (sent c) evs /\
  forall e1 e2 e3 e4 rest g1 g2 g3 g4 sched',
    evs = e1 :: e2 :: e3 :: e4 :: rest ->
    sched = g1 :: g2 :: g3 :: g4 :: sched' ->
    mt = 0 -> delta_us e1 = 1000 -> delta_us e2 = 1000 -> delta_us e3 = 2000 ->
    now - st = 5000 ->
    0 <= run_us g1 -> 0 <= run_us g2 -> 0 <= run_us g3 ->
    let t1 := now + run_us g1 in
    let t2 := t1 + run_us g2 in
    let t3 := t2 + run_us g3 in
    let t4 := t3 + run_us g4 in
    let wait := mt + delta_us e1 + delta_us e2 + delta_us e3 + delta_us e4
                - (t4 - st) in
    0 < wait ->
    exists later,
      history (world s') =
      history (world s) ++
      map (pair t1) (sent c e1) ++ map (pair t2) (sent c e2) ++
      map (pair t3) (sent c e3) ++
      (t4, sleep_us wait) :: map (pair (t4 + wait + late_us g4)) (sent c e4) ++
      later.
Proof.
  intros Hq Hp s' st now.
  assert (Hs : history (world s') =
               history (world s) ++ paced c evs mt st now sched)
    by (subst s'; unfold exec; rewrite midi_loop_quiet by assumption;
        reflexivity).
  split; [unfold outcome; rewrite midi_loop_quiet by assumption; reflexivity |].
  split; [exact Hs |].
  split; [apply sends_of_paced |].
  intros e1 e2 e3 e4 rest g1 g2 g3 g4 sched' -> -> Hmt H1 H2 H3 Hl R1 R2 R3
         t1 t2 t3 t4 wait Hw.
  rewrite Hs.
  rewrite paced_now by lia. rewrite paced_now by lia.
  rewrite paced_now by (fold t1 t2; lia).
  rewrite paced_later by exact Hw.
  eexists. reflexivity.
Qed.

Lemma midi_loop_paces_events_witness :
  let s := entering_loop song_m 5000 in
  let e n := nth n demo_events (demo_event 0 0 0) in
  history (world (exec (midi_loop 0 demo_events 0 []) s)) =
  history (world s) ++
  map (pair 5000) (sent 0 (e 0%nat) ++ sent 0 (e 1%nat) ++ sent 0 (e 2%nat)) ++
  [(5000, sleep_us 2000); (7000, sleep_us 500)] ++
  map (pair 7500) (sent 0 (e 4%nat)).
Proof.
  intros s e.
  destruct (midi_loop_paces_events 0 demo_events 0 [] s) as (_ & H & _);
    [constructor | reflexivity | exact H].
Defined.

(* ------------------------------------------------------------------ *)
(** ** The accumulator [midi_time] *)

Lemma paced_app c pre post : forall mt st now sched,
  paced c (pre ++ post) mt st now sched =
  paced c pre mt st now sched ++
  paced c post (mt + total_delta pre) st (paced_clock pre mt st now sched)
        (skipn (List.length pre) sched).
Proof.
  induction pre as [| e pre IH]; intros mt st now sched.
  - cbn. unfold total_delta. cbn. now rewrite Z.add_0_r.
  - assert (Hsk : skipn (List.length (e :: pre)) sched =
                  skipn (List.length pre) (tl sched))
      by (destruct sched; cbn; [now rewrite skipn_nil | reflexivity]).
    rewrite Hsk.
    replace (mt + total_delta (e :: pre))
      with (mt + delta_us e + total_delta pre)
      by (unfold total_delta; cbn; lia).
    cbn. destruct (0 <? _); rewrite IH; cbn; rewrite <- ?app_assoc; reflexivity.
Qed.

Lemma Forall_hd_skipn (P : Gap -> Prop) n sched :
  P no_gap -> Forall P sched -> P (hd no_gap (skipn n sched)).
Proof.
  intros H0 H. revert n.
  induction H as [| g l Hg Hl IH]; intros [| n]; cbn; auto.
Qed.

Lemma paced_clock_on_time pre : forall mt st now sched,
  Forall (fun g => run_us g = 0 /\ late_us g = 0) sched ->
  Forall (fun ev => 0 <= delta_us ev) pre ->
  now <= st + mt ->
  paced_clock pre mt st now sched <= st + mt + total_delta pre.
Proof.
  induction pre as [| e pre IH]; intros mt st now sched Hz Hd Hn.
  - unfold total_delta; cbn. lia.
  - inversion Hd as [| ? ? He Hpre]; subst.
    assert (Hg : run_us (hd no_gap sched) = 0 /\ late_us (hd no_gap sched) = 0)
      by (destruct Hz as [| g l Hg _]; cbn; auto).
    assert (Hz' : Forall (fun g => run_us g = 0 /\ late_us g = 0) (tl sched))
      by (destruct Hz; cbn; auto).
    destruct Hg as [Hr Hl].
    replace (st + mt + total_delta (e :: pre))
      with (st + (mt + delta_us e) + total_delta pre)
      by (unfold total_delta; cbn; lia).
    cbn. rewrite Hr, Hl.
    destruct (0 <? _) eqn:Hw; apply IH; auto; lia.
Qed.

(** C10 -- the delta time of every event pulled goes into [midi_time] before
    the kind of the event is looked at: whatever the kinds of the events
    ahead of it, an event is dispatched no earlier than the session's start
    plus the delta times of all of them and its own, and exactly then when
    the engine is on time and nothing else takes time.  An event that is
    dropped delays the ones behind it like any other. *)
Theorem dropped_events_still_delay (c : nat) (pre : list MidiEvent)
        (e : MidiEvent) (post : list MidiEvent) (mt : Z) (sched : list Gap)
        (s : Sys) :
  quiet sched ->
  Forall (fun g => 0 <= late_us g) sched ->
  midi_playing (player s) = true ->
  let s' := exec (midi_loop c (pre ++ e :: post) mt sched) s in
  let st := start_time (player s) in
  exists before t after,
    history (world s') =
      history (world s) ++ before ++ map (pair t) (sent c e) ++ after /\
    sends_of before = flat_map (sent c) pre /\
    due st mt pre e <= t /\
    (Forall (fun g => run_us g = 0 /\ late_us g = 0) sched ->
     Forall (fun ev => 0 <= delta_us ev) (pre ++ [e]) ->
     clock (world s) <= st + mt ->
     t = due st mt pre e).
Proof.
  intros Hq Hl Hp s' st.
  assert (Hs : history (world s') =
               history (world s) ++
               paced c (pre ++ e :: post) mt st (clock (world s)) sched)
    by (subst s'; unfold exec; rewrite midi_loop_quiet by assumption;
        reflexivity).
  rewrite Hs, paced_app. clear Hs.
  set (now := paced_clock pre mt st (clock (world s)) sched).
  set (sched1 := skipn (List.length pre) sched).
  assert (Hlate : 0 <= late_us (hd no_gap sched1))
    by (apply (Forall_hd_skipn (fun g => 0 <= late_us g)); [cbn; lia | exact Hl]).
  assert (Hexact :
    Forall (fun g => run_us g = 0 /\ late_us g = 0) sched ->
    Forall (fun ev => 0 <= delta_us ev) (pre ++ [e]) ->
    clock (world s) <= st + mt ->
    run_us (hd no_gap sched1) = 0 /\ late_us (hd no_gap sched1) = 0 /\
    0 <= delta_us e /\ now <= st + mt + total_delta pre).
  { intros Hz Hd Hn. apply Forall_app in Hd as [Hd He].
    inversion He; subst.
    destruct (Forall_hd_skipn (fun g => run_us g = 0 /\ late_us g = 0)
                (List.length pre) sched (conj eq_refl eq_refl) Hz) as [Hr Hl0].
    repeat split; auto. apply paced_clock_on_time; auto. }
  unfold due. cbn [paced].
  destruct (0 <? _) eqn:Hw.
  - apply Z.ltb_lt in Hw.
    exists (paced c pre mt st (clock (world s)) sched ++
            [(now + run_us (hd no_gap sched1),
              sleep_us (mt + total_delta pre + delta_us e
                        - (now + run_us (hd no_gap sched1) - st)))]).
    eexists. eexists.
    split; [rewrite <- !app_assoc; reflexivity |].
    split; [rewrite sends_of_app, sends_of_paced; cbn; apply app_nil_r |].
    split; [lia |].
    intros Hz Hd Hn. destruct (Hexact Hz Hd Hn) as (Hr & Hl0 & He & Hnow). lia.
  - apply Z.ltb_ge in Hw.
    exists (paced c pre mt st (clock (world s)) sched).
    eexists. eexists.
    split; [reflexivity |].
    split; [apply sends_of_paced |].
    split; [lia |].
    intros Hz Hd Hn. destruct (Hexact Hz Hd Hn) as (Hr & Hl0 & He & Hnow). lia.
Qed.

Lemma dropped_events_still_delay_witness :
  let s := entering_loop song_m 0 in
  let e n := nth n demo_events (demo_event 0 0 0) in
  status (e 3%nat) = 255 /\ sent 0 (e 3%nat) = [] /\
  exists before t after,
    history (world (exec (midi_loop 0 demo_events 0 []) s)) =
      history (world s) ++ before ++ map (pair t) (sent 0 (e 4%nat)) ++ after /\
    sends_of before =
      flat_map (sent 0) [e 0%nat; e 1%nat; e 2%nat; e 3%nat] /\
    7500 <= t /\
    (Forall (fun g => run_us g = 0 /\ late_us g = 0) [] ->
     Forall (fun ev => 0 <= delta_us ev)
            ([e 0%nat; e 1%nat; e 2%nat; e 3%nat] ++ [e 4%nat]) ->
     clock (world s) <= 0 + 0 ->
     t = 7500).
Proof.
  intros s e. split; [reflexivity |]. split; [reflexivity |].
  apply (dropped_events_still_delay 0 [e 0%nat; e 1%nat; e 2%nat; e 3%nat]
           (e 4%nat) [] 0 [] s).
  - constructor.
  - constructor.
  - reflexivity.
Defined.

(* ------------------------------------------------------------------ *)
(** ** Cancellation *)

Lemma triple_bind {A B} P (m : M A) Q (k : A -> M B) R E :
  triple P m Q E -> (forall a, triple (Q a) (k a) R E) ->
  triple P (bind m k) R E.
Proof.
  intros Hm Hk s Hs. unfold bind. specialize (Hm s Hs).
  destruct (m s) as [[a | e] s']; [apply Hk; exact Hm | exact Hm].
Qed.

Lemma triple_weaken {A} (P P' : Sys -> Prop) (m : M A)
      (Q Q' : A -> Sys -> Prop) (E E' : Sys -> Prop) :
  triple P' m Q' E' ->
  (forall s, P s -> P' s) -> (forall a s, Q' a s -> Q a s) ->
  (forall s, E' s -> E s) ->
  triple P m Q E.
Proof.
  intros H HP HQ HE s Hs. specialize (H s (HP s Hs)).
  destruct (m s) as [[a | e] s']; auto.
Qed.

Lemma triple_ret {A} (P : Sys -> Prop) (a : A) E :
  triple P (ret a) (fun _ => P) E.
Proof. intros s Hs; exact Hs. Qed.

Lemma triple_raise {A} (P : Sys -> Prop) e (Q : A -> Sys -> Prop) (E : Sys -> Prop) :
  (forall s, P s -> E s) -> triple P (raise e) Q E.
Proof. intros H s Hs; apply H; exact Hs. Qed.

Lemma triple_gets {A} (P : Sys -> Prop) (f : Sys -> A) E :
  triple P (gets f) (fun a s => P s /\ a = f s) E.
Proof. intros s Hs; cbn; auto. Qed.

Lemma triple_modify (P Q : Sys -> Prop) (f : Sys -> Sys) E :
  (forall s, P s -> Q (f s)) -> triple P (modify f) (fun _ => Q) E.
Proof. intros H s Hs; cbn; auto. Qed.

Lemma triple_when (P : Sys -> Prop) b m E :
  triple P m (fun _ => P) E -> triple P (when b m) (fun _ => P) E.
Proof. destruct b; cbn; [auto | intros _; apply triple_ret]. Qed.

Lemma sends_after_stop_app c h1 : forall p h2,
  sends_after_stop c p (h1 ++ h2) =
  sends_after_stop c p h1 || sends_after_stop c (phase_from c p h1) h2.
Proof.
  induction h1 as [| k h1 IH]; intros p h2; [reflexivity |].
  cbn. rewrite IH, orb_assoc. reflexivity.
Qed.

Lemma phase_from_app c h1 h2 p :
  phase_from c p (h1 ++ h2) = phase_from c (phase_from c p h1) h2.
Proof. apply fold_left_app. Qed.

Lemma calls_record k s :
  calls (with_world (record k) s) = calls s ++ [k].
Proof.
  destruct s as [p [ck dk ofs nfd strm cur hist] lv sel sgs].
  unfold calls. cbn. now rewrite map_app.
Qed.

Lemma neutral_phase c h : forall p, Forall neutral h -> phase_from c p h = p.
Proof.
  induction h as [| k h IH]; intros p Hn; [reflexivity |].
  inversion Hn as [| ? ? Hk Hh]; subst. cbn.
  replace (next_phase c p k) with p by (destruct k; cbn in *; tauto).
  apply IH; exact Hh.
Qed.

Lemma neutral_sends c h : forall p,
  Forall neutral h -> sends_after_stop c p h = false.
Proof.
  induction h as [| k h IH]; intros p Hn; [reflexivity |].
  inversion Hn as [| ? ? Hk Hh]; subst. cbn.
  rewrite IH by exact Hh. destruct k; cbn in *; tauto.
Qed.

Lemma running_framed c k h s s' :
  Forall neutral h -> framed h s s' -> running c k s -> running c k s'.
Proof.
  intros Hn (Hc & Hl & Hsg & Htr & Hmp) [(Hsafe & Hfresh & Hdead) Hrun].
  unfold running, settled, track_live.
  rewrite Hc, Hl, Hsg, Htr, sends_after_stop_app, phase_from_app, Hsafe.
  rewrite (neutral_phase c h), (neutral_sends c h) by exact Hn.
  repeat split; auto.
Qed.

Lemma running_safe c k s : running c k s -> no_send_after_stop c s.
Proof. intros [(H & _) _]; exact H. Qed.

Lemma halted_framed c k h s s' :
  Forall neutral h -> framed h s s' -> halted c k s -> halted c k s'.
Proof.
  intros Hn Hf [Hr Hp]. split; [eapply running_framed; eassumption |].
  destruct Hf as (_ & _ & _ & _ & Hmp).
  destruct (midi_playing (player s')); [| reflexivity].
  rewrite <- Hp; symmetry; auto.
Qed.

Lemma halted_safe c k s : halted c k s -> no_send_after_stop c s.
Proof. intros [H _]; eapply running_safe; exact H. Qed.

Ltac open_settled s Hsafe Hfresh Hdead :=
  destruct s as [[?sg ?af ?aw ?ap ?tr ?mp ?st]
                 [?ck ?dk ?ofs ?nfd ?strm ?cur ?hist] ?lv ?sel ?sgs];
  unfold calls, phase_from in Hsafe, Hfresh, Hdead;
  cbn in Hsafe, Hfresh, Hdead.

(** Bring the history of the final state into the shape of the hypotheses. *)
Ltac hist_norm :=
  unfold running, settled, no_send_after_stop, calls, track_live; cbn;
  rewrite ?map_app, ?sends_after_stop_app;
  unfold phase_from; rewrite ?fold_left_app; cbn.

Lemma stop_running c k :
  triple (running c k) stop (fun _ s => stopped c s) (no_send_after_stop c).
Proof.
  intros s [(Hsafe & Hfresh & Hdead) _].
  open_settled s Hsafe Hfresh Hdead.
  destruct af, sg; cbn; unfold stopped; hist_norm; rewrite Hsafe;
    repeat split; auto; try (intros; discriminate);
    try (intros H; rewrite (Hfresh H); reflexivity);
    destruct (fold_left _ _ _); discriminate.
Qed.

Lemma stopped_running c k s : stopped c s -> running c k s.
Proof. intros (H & Hf & _). split; [exact H | congruence]. Qed.

Lemma length_store {A} (l : list A) c v :
  List.length (store l c v) = List.length l.
Proof.
  revert c; induction l as [| x l IH]; intros [| c]; cbn; auto.
Qed.

(** Statements that keep any property the calls they make cannot affect. *)
Section Framed.
Variables P E : Sys -> Prop.
Hypothesis P_framed :
  forall h s s', Forall neutral h -> framed h s s' -> P s -> P s'.
Hypothesis P_raise : forall s, P s -> E s.

Local Abbreviation kept := (keeps P E).

Lemma kept_bind {A B} (m : M A) (k : A -> M B) :
  kept m -> (forall a, kept (k a)) -> kept (bind m k).
Proof. intros Hm Hk. eapply triple_bind; [exact Hm | exact Hk]. Qed.

Lemma kept_ret {A} (a : A) : kept (ret a).
Proof. apply triple_ret. Qed.

Lemma kept_raise {A} e : kept (@raise A e).
Proof. apply triple_raise, P_raise. Qed.

Lemma kept_gets {A} (f : Sys -> A) : kept (gets f).
Proof. intros s Hs; exact Hs. Qed.

Lemma kept_when b m : kept m -> kept (when b m).
Proof. apply triple_when. Qed.

Lemma kept_call k : neutral k -> kept (call k).
Proof.
  intros Hk s Hs. cbn. apply (P_framed [k] s); [auto | | exact Hs].
  destruct s as [p [ck dk ofs nfd strm cur hist] lv sel sgs].
  unfold framed, calls; cbn. rewrite map_app. auto.
Qed.

Lemma kept_world f :
  (forall w, history (f w) = history w /\
             List.length (cursors (f w)) = List.length (cursors w)) ->
  kept (modify (with_world f)).
Proof.
  intros Hf s Hs. cbn. apply (P_framed [] s); [constructor | | exact Hs].
  destruct s as [p w lv sel sgs]. destruct (Hf w) as [Hh Hc].
  unfold framed, calls; cbn. rewrite Hh, Hc, app_nil_r. auto.
Qed.

Lemma kept_assign f :
  (forall p, song (f p) = song p /\ midi_track (f p) = midi_track p /\
             (midi_playing (f p) = true -> midi_playing p = true)) ->
  kept (assign f).
Proof.
  intros Hf s Hs. cbn. apply (P_framed [] s); [constructor | | exact Hs].
  destruct s as [p w lv sel sgs]. destruct (Hf p) as (H1 & H2 & H3).
  unfold framed, calls; cbn. rewrite app_nil_r. auto.
Qed.

Lemma kept_selected v : kept (modify (with_selected v)).
Proof.
  intros s Hs. cbn. apply (P_framed [] s); [constructor | | exact Hs].
  destruct s as [p w lv sel sgs].
  unfold framed, calls; cbn. rewrite app_nil_r. auto.
Qed.

Lemma kept_py_mod a n : kept (py_mod a n).
Proof. destruct n; [apply kept_raise | apply kept_ret]. Qed.

Lemma kept_py_getitem {A} (l : list A) i : kept (py_getitem l i).
Proof.
  unfold py_getitem. destruct (_ <? 0); [apply kept_raise |].
  destruct (nth_error _ _); [apply kept_ret | apply kept_raise].
Qed.

Lemma kept_is_playing : kept is_playing.
Proof.
  apply kept_bind; [apply kept_gets |].
  intros [sg |]; apply kept_ret.
Qed.

Lemma kept_open path : kept (open path).
Proof.
  apply kept_bind; [apply kept_gets |].
  assert (H : kept (fd <- gets (fun s => next_fd (world s)) ;;
                    call (file_open path fd) ;;
                    modify (with_world (fun w =>
                      set_next_fd (S fd)
                                  (set_open_files (fd :: open_files w) w))) ;;
                    ret fd)).
  { apply kept_bind; [apply kept_gets | intros fd].
    apply kept_bind; [apply kept_call; exact I | intros _].
    apply kept_bind; [apply kept_world; intros w; split; reflexivity |].
    intros _; apply kept_ret. }
  intros [| | r c b]; [apply kept_raise | exact H | exact H].
Qed.

Lemma kept_WaveFile_of path fd : kept (WaveFile_of path fd).
Proof.
  apply kept_bind; [apply kept_gets |].
  intros [| | r c b]; [apply kept_raise | apply kept_raise | apply kept_ret].
Qed.

Lemma kept_audio_play wv : kept (audio.play wv).
Proof.
  apply kept_bind; [apply kept_call; exact I | intros _].
  apply kept_world; intros w; split; reflexivity.
Qed.

Lemma kept_advance us : kept (advance us).
Proof. apply kept_world; intros w; split; reflexivity. Qed.
End Framed.

(** Walk through a statement made of steps that keep the property. *)
Ltac keep_side :=
  first [ assumption | exact I
        | intros ?; split; reflexivity
        | intros ?; split; [reflexivity | apply length_store]
        | intros ?; cbn; repeat split; solve [auto | intros; discriminate] ].

Ltac keep_step :=
  cbv beta;
  lazymatch goal with
  | |- keeps _ _ (bind _ _) => apply kept_bind; [| intros ?]
  | |- keeps _ _ (ret _) => apply kept_ret
  | |- keeps _ _ (gets _) => apply kept_gets
  | |- keeps _ _ (self _) => apply kept_gets
  | |- keeps _ _ monotonic_us => apply kept_gets
  | |- keeps _ _ audio.is_playing => apply kept_gets
  | |- keeps _ _ (raise _) => apply kept_raise; keep_side
  | |- keeps _ _ (when _ _) => apply kept_when
  | |- keeps _ _ (call _) => apply kept_call; keep_side
  | |- keeps _ _ (assign _) => apply kept_assign; keep_side
  | |- keeps _ _ (modify (with_world _)) => apply kept_world; keep_side
  | |- keeps _ _ (modify (with_selected _)) => apply kept_selected; keep_side
  | |- keeps _ _ (advance _) => apply kept_advance; keep_side
  | |- keeps _ _ (open _) => apply kept_open; keep_side
  | |- keeps _ _ (WaveFile_of _ _) => apply kept_WaveFile_of; keep_side
  | |- keeps _ _ (audio.play _) => apply kept_audio_play; keep_side
  | |- keeps _ _ (audio.configure _ _ _) => apply kept_call; keep_side
  | |- keeps _ _ (audio.set_level _) => apply kept_call; keep_side
  | |- keeps _ _ (py_mod _ _) => apply kept_py_mod; keep_side
  | |- keeps _ _ (py_getitem _ _) => apply kept_py_getitem; keep_side
  | |- keeps _ _ is_playing => apply kept_is_playing
  | |- keeps _ _ update_display => apply kept_ret
  | |- keeps _ _ (match ?x with _ => _ end) => destruct x
  end.

Ltac keep := repeat keep_step.

(** *** play *)

Lemma MidiFile_play_opens c k sg path :
  Song.midi_file sg = Some path ->
  triple (fun s => stopped c s)
         (bind (assign (set_song (Some sg)))
               (fun _ => bind (MidiFile_play path)
                              (fun t => assign (set_midi_track (Some t)))))
         (fun _ s => halted c k s) (no_send_after_stop c).
Proof.
  intros Hm s ((Hsafe & Hfresh & Hdead) & Hmp & Hsg & Hlive).
  destruct s as [[sg0 af aw ap tr mp st] [ck dk ofs nfd strm cur hist] lv sel sgs].
  unfold calls, phase_from in *. cbn in Hsafe, Hfresh, Hlive, Hmp, Hsg |- *.
  clear Hdead. subst mp sg0.
  destruct sg as [kn mn afil mfil ti]. cbn in Hm. subst mfil.
  unfold bind, MidiFile_play, gets, assign, modify. cbn.
  destruct (midi_asset dk path) as [evs |]; cbn; [| exact Hsafe].
  unfold halted; hist_norm. rewrite Hsafe, length_app. cbn.
  repeat split; auto; try (intros; discriminate).
  - intros H. destruct (Nat.eqb_spec (List.length cur) c); [lia |].
    apply Hfresh; lia.
  - destruct (Nat.eqb_spec (List.length cur) c); [discriminate | reflexivity].
Qed.

Lemma no_midi_file_settles c k sg :
  Song.midi_file sg = None ->
  triple (fun s => stopped c s)
         (bind (assign (set_song (Some sg))) (fun _ => ret tt))
         (fun _ s => halted c k s) (no_send_after_stop c).
Proof.
  intros Hm s ((Hsafe & Hfresh & Hdead) & Hmp & Hsg & Hlive).
  destruct s as [[sg0 af aw ap tr mp st] [ck dk ofs nfd strm cur hist] lv sel sgs].
  destruct sg as [kn mn afil mfil ti]. cbn in Hm. subst mfil.
  unfold calls, phase_from in *. cbn in Hsafe, Hfresh, Hmp |- *.
  unfold halted; hist_norm.
  repeat split; auto; try congruence. destruct tr; reflexivity.
Qed.

Lemma triple_bind_assoc {A B C} P (m : M A) (f : A -> M B) (g : B -> M C) Q E :
  triple P (bind (bind m f) g) Q E ->
  triple P (bind m (fun x => bind (f x) g)) Q E.
Proof.
  intros H s Hs. specialize (H s Hs). unfold bind in *.
  destruct (m s) as [[a | e] s1]; exact H.
Qed.

Lemma stopped_halted c k s : stopped c s -> halted c k s.
Proof. intros H. split; [eapply stopped_running; exact H | apply H]. Qed.

Lemma play_running c k o :
  triple (running c k) (play o) (fun _ s => halted c k s)
         (no_send_after_stop c).
Proof.
  pose proof (halted_framed c k) as HF. pose proof (halted_safe c k) as HE.
  unfold play.
  eapply triple_bind; [apply stop_running | intros ?; cbv beta].
  destruct o as [sg | | |];
    try (intros ? Hs; cbn; apply stopped_halted; exact Hs).
  apply triple_bind_assoc.
  eapply triple_bind with (Q := fun _ s => halted c k s).
  - destruct (Song.midi_file sg) as [path |] eqn:Hm;
      [apply MidiFile_play_opens | apply no_midi_file_settles]; exact Hm.
  - intros ?.
    change (keeps (halted c k) (no_send_after_stop c)
              (match Song.audio_file sg with
               | Some path =>
                   fd <- open path ;;
                   assign (set_audio_file (Some fd)) ;;
                   wv <- WaveFile_of path fd ;;
                   assign (set_audio_wav (Some wv)) ;;
                   audio.configure (sample_rate wv) (channel_count wv)
                                   (bits_per_sample wv) ;;
                   lv <- gets level ;;
                   audio.set_level lv ;;
                   audio.play wv ;;
                   assign (set_audio_playing true)
               | None => ret tt
               end ;;
               t <- monotonic_us ;;
               assign (set_start_time t) ;;
               ret true)).
    keep.
Qed.

(** *** The rest of the program *)

Lemma stop_keeps c k : keeps (running c k) (no_send_after_stop c) stop.
Proof.
  eapply triple_weaken; [apply (stop_running c k) | auto | | auto].
  intros ? s H; eapply stopped_running; exact H.
Qed.

Lemma play_keeps c k o : keeps (running c k) (no_send_after_stop c) (play o).
Proof.
  eapply triple_weaken; [apply (play_running c k) | auto | | auto].
  intros ? s H; apply H.
Qed.

Ltac keep_run :=
  repeat first [ apply stop_keeps | apply play_keeps | keep_step ].

Lemma ext_keeps c k e : keeps (running c k) (no_send_after_stop c) (ext e).
Proof.
  pose proof (running_framed c k) as HF. pose proof (running_safe c k) as HE.
  destruct e as [| o | i | | | | us]; cbn [ext];
    unfold toggle_song, increment_song, decrement_song; keep_run.
Qed.

Lemma exts_keep c k es : keeps (running c k) (no_send_after_stop c) (exts es).
Proof.
  induction es as [| e es IH]; cbn [exts].
  - apply kept_ret.
  - apply kept_bind; [apply ext_keeps | intros ?; exact IH].
Qed.

Lemma sleep_keeps c k delay g :
  keeps (running c k) (no_send_after_stop c) (sleep delay g).
Proof.
  pose proof (running_framed c k) as HF. pose proof (running_safe c k) as HE.
  unfold sleep.
  apply kept_bind; [keep | intros t0].
  apply kept_bind; [keep | intros ?].
  apply kept_bind; [apply exts_keep | intros ?].
  keep.
Qed.

(** *** The loop under interference *)

Lemma sent_phase c k e p : phase_from c p (sent k e) = p.
Proof.
  unfold sent.
  repeat match goal with
         | |- context [if ?b then _ else _] => destruct b
         end; reflexivity.
Qed.

Lemma sent_safe c k e p :
  (k = c -> p <> dead) -> sends_after_stop c p (sent k e) = false.
Proof.
  intros H. unfold sent.
  repeat match goal with
         | |- context [if ?b then _ else _] => destruct b
         end; try reflexivity; cbn;
    (destruct p; try reflexivity;
     destruct (Nat.eqb_spec k c); [exfalso; apply H; auto | reflexivity]).
Qed.

Lemma dispatch_running c k e :
  triple (fun s => running c k s /\ true = midi_playing (player s))
         (dispatch k e) (fun _ s => running c k s) (no_send_after_stop c).
Proof.
  intros s [[(Hsafe & Hfresh & Hdead) Hrun] Hmp].
  rewrite dispatch_sent.
  assert (Hc : calls (with_world
                        (fun w => set_history
                           (history w ++ map (pair (clock w)) (sent k e)) w) s)
               = calls s ++ sent k e).
  { destruct s as [p [ck dk ofs nfd strm cur hist] lv sel sgs].
    unfold calls. cbn. rewrite map_app, map_map. cbn. now rewrite map_id. }
  unfold running, settled. rewrite Hc.
  rewrite sends_after_stop_app, phase_from_app, sent_phase, Hsafe, sent_safe
    by auto.
  destruct s as [p [ck dk ofs nfd strm cur hist] lv sel sgs]. cbn in *.
  repeat split; auto.
Qed.

Lemma midi_loop_keeps c k evs : forall mt sched,
  keeps (running c k) (no_send_after_stop c) (midi_loop k evs mt sched).
Proof.
  pose proof (running_framed c k) as HF. pose proof (running_safe c k) as HE.
  induction evs as [| e rest IH]; intros mt sched; cbn [midi_loop].
  - apply kept_ret.
  - apply kept_bind; [keep | intros ?].
    apply kept_bind; [keep | intros ?].
    apply kept_bind; [keep | intros now].
    apply kept_bind; [keep | intros st].
    apply kept_bind; [apply kept_when, sleep_keeps | intros ?].
    eapply triple_bind; [apply triple_gets | intros mp; cbv beta].
    destruct mp; cbn [negb].
    + eapply triple_bind; [apply dispatch_running | intros ?; apply IH].
    + intros s [Hs _]; exact Hs.
Qed.

(** *** update and runs *)

Lemma settled_running c s : settled c s -> running c (S c) s.
Proof. intros H. split; [exact H | intros Hk; exfalso; lia]. Qed.

Lemma update_keeps c sched :
  keeps (settled c) (no_send_after_stop c) (update sched).
Proof.
  unfold update.
  eapply triple_bind; [apply triple_gets | intros sgo; cbv beta].
  destruct sgo as [sg |]; [| intros s [Hs _]; exact Hs].
  eapply triple_bind; [apply triple_gets | intros tr; cbv beta].
  eapply triple_bind with (Q := fun _ s => settled c s).
  - destruct (Song.has_midi sg) eqn:Hh; [| intros s [[Hs _] _]; exact Hs].
    destruct tr as [k |]; [| intros s [[Hs _] _]; exact Hs].
    eapply triple_bind with (Q := fun _ s => running c k s).
    + apply triple_modify.
      intros s [[(Hsafe & Hfresh & Hdead) Hsg] Htr].
      destruct s as [[sg0 af aw ap tr0 mp st] w lv sel sgs].
      unfold running, settled, track_live, calls in *. cbn in *.
      subst sg0 tr0. repeat split; auto.
      intros -> _ Hd. specialize (Hdead Hd).
      rewrite Hh, Nat.eqb_refl in Hdead. discriminate.
    + intros ?. eapply triple_weaken with (P' := running c k)
                                          (Q' := fun _ s => running c k s)
                                          (E' := no_send_after_stop c);
        [| auto | intros ? s H; apply H | auto].
      pose proof (running_framed c k) as HF.
      pose proof (running_safe c k) as HE.
      apply kept_bind; [keep | intros evs].
      apply kept_bind; [apply midi_loop_keeps | intros ?].
      keep.
  - intros ?.
    eapply triple_weaken with (P' := running c (S c))
                              (Q' := fun _ s => running c (S c) s)
                              (E' := no_send_after_stop c);
      [| apply settled_running | intros ? s H; apply H | auto].
    pose proof (running_framed c (S c)) as HF.
    pose proof (running_safe c (S c)) as HE.
    lazymatch goal with |- triple ?P ?m _ ?E => change (keeps P E m) end.
    keep_run.
Qed.

Lemma act_keeps c a : keeps (settled c) (no_send_after_stop c) (act a).
Proof.
  destruct a as [sched | e]; cbn [act]; [apply update_keeps |].
  eapply triple_weaken with (P' := running c (S c))
                            (Q' := fun _ s => running c (S c) s);
    [apply ext_keeps | apply settled_running | intros ? s H; apply H | auto].
Qed.

Lemma run_keeps c acts : keeps (settled c) (no_send_after_stop c) (run acts).
Proof.
  induction acts as [| a acts IH]; cbn [run].
  - apply kept_ret.
  - apply kept_bind; [apply act_keeps | intros ?; exact IH].
Qed.

Lemma boot_settled c d lv catalog : settled c (boot d lv catalog).
Proof. repeat split; auto; discriminate. Qed.

(** *** stop() during a suspension *)

Lemma play_clears_flag o s : flag_down (exec (play o) s).
Proof.
  unfold flag_down. open_sys s.
  destruct o as [[kn mn afil mfil ti] | | |]; unfold exec, play, stop, bind;
    py_run; reflexivity.
Qed.

Lemma flag_down_framed h s s' :
  Forall neutral h -> framed h s s' -> flag_down s -> flag_down s'.
Proof.
  unfold flag_down. intros _ (_ & _ & _ & _ & Hmp) Hs.
  destruct (midi_playing (player s')); [| reflexivity].
  rewrite <- Hs; symmetry; auto.
Qed.

Lemma stop_flag_down (P : Sys -> Prop) :
  triple P stop (fun _ => flag_down) whatever.
Proof.
  intros s _. pose proof (stop_returns s) as Hr. pose proof (stop_player s) as Hp.
  unfold outcome, exec in *. destruct (stop s) as [[[] | e] s']; cbn in *;
    [| exact I].
  unfold flag_down. rewrite Hp. reflexivity.
Qed.

Lemma play_flag_down (P : Sys -> Prop) o :
  triple P (play o) (fun _ => flag_down) whatever.
Proof.
  intros s _. pose proof (play_clears_flag o s) as H. unfold exec in H.
  destruct (play o s) as [[b | e] s']; [exact H | exact I].
Qed.

Lemma ext_flag_down e : keeps flag_down whatever (ext e).
Proof.
  pose proof flag_down_framed as HF.
  assert (HE : forall s, flag_down s -> whatever s) by (intros; exact I).
  destruct e as [| o | i | | | | us]; cbn [ext];
    unfold toggle_song, increment_song, decrement_song;
    repeat first [ apply stop_flag_down | apply play_flag_down | keep_step ].
Qed.

Lemma exts_flag_down es : keeps flag_down whatever (exts es).
Proof.
  induction es as [| e es IH]; cbn [exts].
  - apply kept_ret.
  - apply kept_bind; [apply ext_flag_down | intros ?; exact IH].
Qed.

Lemma exts_with_stop es :
  In call_stop es ->
  triple (fun _ => True) (exts es) (fun _ => flag_down) whatever.
Proof.
  induction es as [| e es IH]; intros Hin; [destruct Hin |].
  cbn [exts]. destruct Hin as [-> | Hin].
  - eapply triple_bind; [apply stop_flag_down | intros ?; apply exts_flag_down].
  - eapply triple_bind with (Q := fun _ _ => True); [| intros ?; apply IH, Hin].
    intros s _. destruct (ext e s) as [[? | ?] ?]; exact I.
Qed.

Lemma sleep_with_stop delay g :
  In call_stop (others g) ->
  triple (fun _ => True) (sleep delay g) (fun _ => flag_down) whatever.
Proof.
  intros Hin. unfold sleep.
  eapply triple_bind with (Q := fun _ _ => True); [intros s _; exact I |].
  intros t0.
  eapply triple_bind with (Q := fun _ _ => True); [intros s _; exact I |].
  intros ?.
  eapply triple_bind; [apply exts_with_stop, Hin | intros ?].
  pose proof flag_down_framed as HF.
  lazymatch goal with |- triple ?P ?m _ ?E => change (keeps P E m) end.
  keep.
Qed.

Lemma midi_loop_cancelled k e rest mt g sched s :
  0 < wait_for e mt (pulled k rest g s) ->
  In call_stop (others g) ->
  midi_loop k (e :: rest) mt (g :: sched) s =
  sleep (wait_for e mt (pulled k rest g s)) g (pulled k rest g s).
Proof.
  intros Hw Hin. cbn [midi_loop hd tl].
  unfold bind at 1. cbn [modify]. unfold bind at 1.
  change (advance (run_us g) _) with
    (Return tt, pulled k rest g s).
  cbv iota. unfold bind at 1, monotonic_us at 1. cbn [gets].
  unfold bind at 1, self at 1. cbn [gets].
  fold (wait_for e mt (pulled k rest g s)).
  apply Z.ltb_lt in Hw. rewrite Hw. cbn [when].
  pose proof (sleep_with_stop (wait_for e mt (pulled k rest g s)) g Hin
                (pulled k rest g s) I) as Hs.
  unfold bind at 1.
  destruct (sleep _ g (pulled k rest g s)) as [[[] | x] s1]; [| reflexivity].
  unfold flag_down in Hs. unfold bind, self, gets. rewrite Hs. reflexivity.
Qed.

(** In every run of the program from its start, up to the first call that
    raises (a run ends there), whatever the songs, the files and the other
    tasks do, no event of a MIDI generator is sent after a stop() that
    follows the creation of that generator; and a loop that sleeps before an
    event while another task calls stop() ends with that sleep: the flag is
    checked on wake-up, the event and the rest of the generator are left
    where they are and nothing is dispatched. *)
Theorem stop_cancels_midi_dispatch :
  (forall acts d lv catalog c,
      sends_after_stop c unopened
        (calls (exec (run acts) (boot d lv catalog))) = false) /\
  (forall k e rest mt g sched s,
      0 < wait_for e mt (pulled k rest g s) ->
      In call_stop (others g) ->
      midi_loop k (e :: rest) mt (g :: sched) s =
      sleep (wait_for e mt (pulled k rest g s)) g (pulled k rest g s)).
Proof.
  split.
  - intros acts d lv catalog c.
    pose proof (run_keeps c acts (boot d lv catalog) (boot_settled c d lv catalog))
      as H.
    unfold exec. destruct (run acts (boot d lv catalog)) as [[[] | x] s'].
    + apply H.
    + exact H.
  - apply midi_loop_cancelled.
Qed.

Lemma stop_cancels_midi_dispatch_witness :
  let s := entering_loop song_m 0 in
  let g := mkGap 0 0 [call_stop] in
  midi_loop 0 demo_events 0 [g] s =
    sleep 1000 g (pulled 0%nat (tl demo_events) g s) /\
  calls (exec (midi_loop 0 demo_events 0 [g]) s) =
    [audio_stop; midi_open "/sd/m.mid" 0; sleep_us 1000; audio_stop] /\
  sends_after_stop 0 unopened
    (calls (exec (run [other (call_play (PySong song_m)); tick [g]; tick []])
                 demo)) = false.
Proof.
  intros s g. split; [| split].
  - apply (proj2 stop_cancels_midi_dispatch 0%nat
             (hd (demo_event 0 0 0) demo_events) (tl demo_events) 0 g [] s); [reflexivity | left; reflexivity].
  - reflexivity.
  - apply (proj1 stop_cancels_midi_dispatch).
Defined.

(** C2 (code at the failing input) -- stop() clears [midi_playing], [song]
    and [audio_file] but leaves [midi_track], and play records the song
    before it opens the MIDI file.  So when a session is stopped during a
    sleep of its loop and the next play fails on its MIDI file, the update()
    that follows iterates the stopped generator: the events it had left are
    dispatched after the stop(). *)
Theorem stopped_generator_resumes_after_failed_play :
  let s1 := exec (run [other (call_play (PySong song_m));
                       tick [mkGap 0 0 [call_stop]]]) demo in
  let s2 := exec (play (PySong song_lost)) s1 in
  let s3 := exec (update []) s2 in
  In audio_stop (calls s1) /\
  sends_of (history (world s1)) = [] /\
  nth 0 (cursors (world s1)) [] = tl demo_events /\
  outcome (play (PySong song_lost)) s1 = Raise (OSError "/sd/lost.mid") /\
  midi_track (player s2) = Some 0%nat /\
  outcome (update []) s2 = Return tt /\
  sends_of (history (world s3)) = flat_map (sent 0) (tl demo_events) /\
  sends_after_stop 0 unopened (calls s3) = true.
Proof. cbv. auto 10. Qed.

(* ------------------------------------------------------------------ *)
(** ** Invariants of a run *)

Lemma spec_bind {A B} P (m : M A) Q (k : A -> M B) R E :
  spec P m Q E -> (forall a, spec (Q a) (k a) R E) -> spec P (bind m k) R E.
Proof.
  intros Hm Hk s Hs. unfold bind. specialize (Hm s Hs).
  destruct (m s) as [[a | e] s']; [apply Hk; exact Hm | exact Hm].
Qed.

Lemma spec_gets {A} (P : Sys -> Prop) (f : Sys -> A) E :
  spec P (gets f) (fun a s => P s /\ a = f s) E.
Proof. intros s Hs; cbn; auto. Qed.

Lemma play_raises o s e : outcome (play o) s = Raise e -> io_error e.
Proof.
  open_sys s.
  destruct o as [[kn mn afil mfil ti] | | |]; unfold outcome, play, stop, bind;
    py_run; intros [=]; subst; exact I.
Qed.

Lemma mod_in_range a n : 0 <= a mod Z.of_nat (S n) < Z.of_nat (S n).
Proof. apply Z.mod_pos_bound. lia. Qed.

Section Sound.
Variable L : list Song.t.

Lemma sound_same s s' : same_resources s s' -> sound L s -> sound L s'.
Proof.
  intros (Hof & Hfd & Hst & Hsg & Haf & Hmp & Hsel & Hsgs)
         ((Hc1 & Hc2 & Hc3) & Hl & Hr).
  unfold sound, coherent, in_range in *.
  rewrite Hof, Hfd, Hsg, Haf, Hsel, Hsgs.
  split; [split; [exact Hc1 | split; [exact Hc2 |]]
         | split; [exact Hl | exact Hr]].
  intros H. destruct (Hc3 H) as (H1 & H2 & H3).
  split; [exact H1 |]. split.
  - destruct (midi_playing (player s')); [| reflexivity].
    rewrite <- H2; symmetry; apply Hmp; reflexivity.
  - destruct Hst as [-> | ->]; auto.
Qed.

Lemma sane_bind {A B} (m : M A) (k : A -> M B) :
  sane L m -> (forall a, sane L (k a)) -> sane L (bind m k).
Proof. intros Hm Hk. eapply spec_bind; [exact Hm | exact Hk]. Qed.

Lemma sane_ret {A} (a : A) : sane L (ret a).
Proof. intros s Hs; exact Hs. Qed.

Lemma sane_gets {A} (f : Sys -> A) : sane L (gets f).
Proof. intros s Hs; exact Hs. Qed.

Lemma sane_when b m : sane L m -> sane L (when b m).
Proof. destruct b; cbn; [auto | intros _; apply sane_ret]. Qed.

Lemma sane_modify f : (forall s, same_resources s (f s)) -> sane L (modify f).
Proof. intros Hf s Hs. cbn. eapply sound_same; [apply Hf | exact Hs]. Qed.

Lemma sane_call k : sane L (call k).
Proof.
  apply sane_modify. intros [p [ck dk ofs nfd strm cur hist] lv sel sgs].
  unfold same_resources; cbn; auto 10.
Qed.

Lemma sane_world f :
  (forall w, open_files (f w) = open_files w /\ next_fd (f w) = next_fd w /\
             (streaming (f w) = streaming w \/ streaming (f w) = None)) ->
  sane L (modify (with_world f)).
Proof.
  intros Hf. apply sane_modify. intros [p w lv sel sgs].
  destruct (Hf w) as (H1 & H2 & H3). unfold same_resources; cbn; auto 10.
Qed.

Lemma sane_assign f :
  (forall p, song (f p) = song p /\ audio_file (f p) = audio_file p /\
             (midi_playing (f p) = true -> midi_playing p = true)) ->
  sane L (assign f).
Proof.
  intros Hf. apply sane_modify. intros [p w lv sel sgs].
  destruct (Hf p) as (H1 & H2 & H3). unfold same_resources; cbn; auto 10.
Qed.

Lemma sane_stop : sane L stop.
Proof.
  intros s (Hc & Hl & Hr).
  pose proof (stop_returns s) as Ho. pose proof (stop_coherent s Hc) as Hc'.
  pose proof (stop_globals s) as (_ & Hsel & Hsgs).
  unfold outcome, exec in *. destruct (stop s) as [[[] | e] s']; cbn in *;
    [| discriminate].
  split; [exact Hc' |]. unfold in_range. rewrite Hsel, Hsgs. auto.
Qed.

Lemma sane_play o : sane L (play o).
Proof.
  intros s (Hc & Hl & Hr).
  pose proof (play_coherent o s Hc) as Hc'.
  pose proof (play_globals o s) as (Hsel & Hsgs).
  pose proof (play_raises o s) as He.
  unfold outcome, exec in *. destruct (play o s) as [[b | e] s']; cbn in *.
  - split; [exact Hc' |]. unfold in_range. rewrite Hsel, Hsgs. auto.
  - split; [exact Hc' |]. split; [congruence |]. intros _. apply He. reflexivity.
Qed.

(** [selected = a % len(songs)] *)
Lemma sane_set_selected a :
  sane L (n <- gets (fun s => List.length (songs s)) ;;
          v <- py_mod a n ;;
          modify (with_selected v)).
Proof.
  intros s (Hc & Hl & Hr). unfold bind, gets, py_mod.
  destruct s as [p w lv sel sgs]. cbn in *. subst L.
  destruct sgs as [| sg sgs]; cbn.
  - split; [exact Hc | split; [reflexivity | intros H; congruence]].
  - split; [exact Hc |]. split; [reflexivity |].
    intros _. unfold in_range. cbn [selected songs].
    apply (mod_in_range a (List.length sgs)).
Qed.

Lemma sane_step_selected (f : Z -> Z) :
  sane L (sel <- gets selected ;;
          n <- gets (fun s => List.length (songs s)) ;;
          v <- py_mod (f sel) n ;;
          modify (with_selected v) ;;
          update_display).
Proof.
  intros s (Hc & Hl & Hr). unfold bind, gets, py_mod, update_display.
  destruct s as [p w lv sel sgs]. cbn in *. subst L.
  destruct sgs as [| sg sgs]; cbn.
  - split; [exact Hc | split; [reflexivity | intros H; congruence]].
  - split; [exact Hc |]. split; [reflexivity |].
    intros _. unfold in_range. cbn [selected songs].
    apply (mod_in_range (f sel) (List.length sgs)).
Qed.

Lemma sane_play_selected :
  sane L (sel <- gets selected ;;
          l <- gets songs ;;
          sg <- py_getitem l sel ;;
          play (PySong sg) ;; ret tt).
Proof.
  intros s Hs. unfold bind at 1 2 3, gets, py_getitem.
  pose proof Hs as (Hc & Hl & Hr). unfold in_range in Hr.
  destruct (songs s) as [| x l] eqn:Hsgs.
  - rewrite nth_error_nil.
    destruct (_ <? 0); cbn;
      (split; [exact Hc | split; [congruence | intros H; congruence]]).
  - assert (H : 0 <= selected s < Z.of_nat (List.length (x :: l)))
      by (apply Hr; congruence).
    destruct (Z.leb_spec 0 (selected s)); [| lia].
    destruct (Z.ltb_spec (selected s) 0); [lia |].
    destruct (nth_error (x :: l) (Z.to_nat (selected s))) as [sg |] eqn:Hn.
    + apply (sane_bind _ _ (sane_play (PySong sg)) (fun _ => sane_ret tt)).
      exact Hs.
    + apply nth_error_None in Hn. lia.
Qed.

Lemma sane_is_playing : sane L is_playing.
Proof.
  apply sane_bind; [apply sane_gets | intros [sg |]; apply sane_ret].
Qed.

Lemma sane_toggle_song index : sane L (toggle_song index).
Proof.
  unfold toggle_song.
  apply sane_bind;
    [destruct index; [apply sane_set_selected | apply sane_ret] | intros ?].
  apply sane_bind; [apply sane_is_playing | intros b].
  apply sane_bind; [| intros ?; apply sane_ret].
  destruct b; [apply sane_stop | apply sane_play_selected].
Qed.

Lemma sane_ext e : sane L (ext e).
Proof.
  destruct e as [| o | i | | | | us]; cbn [ext].
  - apply sane_stop.
  - apply sane_bind; [apply sane_play | intros ?; apply sane_ret].
  - apply sane_toggle_song.
  - apply sane_bind; [apply sane_is_playing | intros b].
    apply sane_when, (sane_step_selected (fun sel => sel + 1)).
  - apply sane_bind; [apply sane_is_playing | intros b].
    apply sane_when, (sane_step_selected (fun sel => sel - 1)).
  - apply sane_world. intros w; cbn; auto.
  - apply sane_world. intros w; cbn; auto.
Qed.

Lemma sane_exts es : sane L (exts es).
Proof.
  induction es as [| e es IH]; cbn [exts].
  - apply sane_ret.
  - apply sane_bind; [apply sane_ext | intros ?; exact IH].
Qed.

Lemma sane_sleep delay g : sane L (sleep delay g).
Proof.
  unfold sleep.
  apply sane_bind; [apply sane_gets | intros t0].
  apply sane_bind; [apply sane_call | intros ?].
  apply sane_bind; [apply sane_exts | intros ?].
  apply sane_bind; [apply sane_gets | intros t1].
  apply sane_world. intros w; cbn; auto.
Qed.

Lemma sane_dispatch c e : sane L (dispatch c e).
Proof.
  unfold dispatch, midi_call.
  repeat match goal with
         | |- context [if ?b then _ else _] => destruct b
         end; first [apply sane_call | apply sane_ret].
Qed.

Lemma sane_midi_loop c evs : forall mt sched, sane L (midi_loop c evs mt sched).
Proof.
  induction evs as [| e rest IH]; intros mt sched; cbn [midi_loop].
  - apply sane_ret.
  - apply sane_bind; [apply sane_world; intros w; cbn; auto | intros ?].
    apply sane_bind; [apply sane_world; intros w; cbn; auto | intros ?].
    apply sane_bind; [apply sane_gets | intros now].
    apply sane_bind; [apply sane_gets | intros st].
    apply sane_bind; [apply sane_when, sane_sleep | intros ?].
    apply sane_bind; [apply sane_gets | intros mp].
    destruct mp; cbn [negb]; [| apply sane_ret].
    apply sane_bind; [apply sane_dispatch | intros ?; apply IH].
Qed.

Lemma sane_update sched : sane L (update sched).
Proof.
  unfold update.
  eapply spec_bind; [apply spec_gets | intros sgo; cbv beta].
  destruct sgo as [sg |]; [| intros s [Hs _]; exact Hs].
  eapply spec_bind with (Q := fun _ s => sound L s /\ song (player s) <> None);
    [intros s [Hs Hsg]; cbn; split; [exact Hs | congruence] | intros tr].
  eapply spec_bind with (Q := fun _ s => sound L s).
  - destruct (Song.has_midi sg); [| intros s [Hs _]; exact Hs].
    destruct tr as [k |]; [| intros s [Hs _]; exact Hs].
    eapply spec_bind with (Q := fun _ s => sound L s).
    + intros s [((Hc1 & Hc2 & Hc3) & Hl & Hr) Hsg]. cbn.
      destruct s as [[sg0 af aw ap tr0 mp st] w lv sel sgs].
      unfold sound, coherent, in_range in *. cbn in *.
      split; [split; [exact Hc1 | split; [exact Hc2 | intros H; contradiction]]
             | split; [exact Hl | exact Hr]].
    + intros ?.
      apply sane_bind; [apply sane_gets | intros evs].
      apply sane_bind; [apply sane_midi_loop | intros ?].
      apply sane_assign. intros p; cbn; repeat split; auto; discriminate.
  - intros ?.
    apply sane_bind; [apply sane_gets | intros ap].
    apply sane_bind; [apply sane_gets | intros ia].
    apply sane_bind;
      [apply sane_when, sane_assign; intros p; cbn; auto | intros ?].
    apply sane_bind; [apply sane_gets | intros mp].
    apply sane_bind; [apply sane_gets | intros ap'].
    apply sane_when, sane_stop.
Qed.

Lemma sane_run acts : sane L (run acts).
Proof.
  induction acts as [| a acts IH]; cbn [run].
  - apply sane_ret.
  - apply sane_bind; [| intros ?; exact IH].
    destruct a; [apply sane_update | apply sane_ext].
Qed.

End Sound.

Lemma boot_sound d lv catalog : sound catalog (boot d lv catalog).
Proof.
  split; [| split; [reflexivity |]].
  - repeat split; auto. intros fd [=].
  - intros H. unfold in_range; cbn. destruct catalog; [congruence |].
    cbn [List.length]. lia.
Qed.

(** In every run of the program from its start, whether it ends normally or
    in an error: the player's audio file is the only open file, an idle
    player holds no file, has no MIDI segment active and nothing streams. *)
Theorem run_is_coherent (acts : list Act) (d : Disk) (lv : Q)
        (catalog : list Song.t) :
  coherent (exec (run acts) (boot d lv catalog)).
Proof.
  pose proof (sane_run catalog acts (boot d lv catalog)
                (boot_sound d lv catalog)) as H.
  unfold exec. destruct (run acts (boot d lv catalog)) as [[[] | e] s'];
    apply H.
Qed.

(** With a catalogue that is not empty, the selection is an index of the
    catalogue after every run that returns, and a run can only fail with an
    error of the file system or of the WAV decoder: the remainder by
    len(songs) never divides by zero and songs[selected] never leaves the
    list.  The catalogue itself is never changed. *)
Theorem selection_stays_in_range (acts : list Act) (d : Disk) (lv : Q)
        (catalog : list Song.t) :
  catalog <> [] ->
  let s := boot d lv catalog in
  match outcome (run acts) s with
  | Return _ => in_range (exec (run acts) s)
  | Raise e => io_error e
  end /\
  songs (exec (run acts) s) = catalog.
Proof.
  intros Hne s.
  pose proof (sane_run catalog acts s (boot_sound d lv catalog)) as H.
  unfold outcome, exec in *. destruct (run acts s) as [[[] | e] s']; cbn in *;
    destruct H as (_ & Hl & Hr); auto.
Qed.

Lemma selection_stays_in_range_witness :
  let s := boot demo_disk (1 # 2) [song_a; song_m; song_am] in
  let acts := [other turn_down; other (click None); other (click (Some 7))] in
  match outcome (run acts) s with
  | Return _ => in_range (exec (run acts) s)
  | Raise e => io_error e
  end /\
  songs (exec (run acts) s) = [song_a; song_m; song_am].
Proof.
  apply (selection_stays_in_range
           [other turn_down; other (click None); other (click (Some 7))]
           demo_disk (1 # 2) [song_a; song_m; song_am]).
  discriminate.
Defined.

(* ------------------------------------------------------------------ *)
(** ** The encoder callbacks *)

Lemma step_back_and_forth sel n :
  0 <= sel < Z.of_nat (S n) ->
  ((sel + 1) mod Z.of_nat (S n) - 1) mod Z.of_nat (S n) = sel /\
  ((sel - 1) mod Z.of_nat (S n) + 1) mod Z.of_nat (S n) = sel.
Proof.
  intros H. rewrite Zminus_mod_idemp_l, Zplus_mod_idemp_l.
  replace (sel + 1 - 1) with sel by lia. replace (sel - 1 + 1) with sel by lia.
  rewrite Z.mod_small by exact H. auto.
Qed.

(** On an idle engine a turn of the encoder one way and then the other
    brings the selection back, whichever way comes first; neither callback
    raises. *)
Theorem song_selection_round_trip (s : Sys) :
  idle s -> in_range s ->
  outcome increment_song s = Return tt /\
  outcome decrement_song s = Return tt /\
  selected (exec decrement_song (exec increment_song s)) = selected s /\
  selected (exec increment_song (exec decrement_song s)) = selected s.
Proof.
  destruct s as [[sg af aw ap tr mp st] w lv sel sgs].
  unfold idle, in_range. cbn. intros -> H.
  destruct sgs as [| x l]; [cbn in H; lia |].
  unfold outcome, exec, increment_song, decrement_song, bind. cbn.
  destruct (step_back_and_forth sel (List.length l) H) as [H1 H2].
  repeat split; assumption.
Qed.

Lemma song_selection_round_trip_witness :
  outcome increment_song demo = Return tt /\
  outcome decrement_song demo = Return tt /\
  selected (exec decrement_song (exec increment_song demo)) = selected demo /\
  selected (exec increment_song (exec decrement_song demo)) = selected demo.
Proof.
  apply (song_selection_round_trip demo); [reflexivity | unfold in_range, demo, boot; cbn; lia].
Defined.

Lemma wrap_forth sel n :
  0 <= sel < Z.of_nat (S n) ->
  (sel + 1) mod Z.of_nat (S n) =
  (if sel =? Z.of_nat (S n) - 1 then 0 else sel + 1).
Proof.
  intros H. destruct (Z.eqb_spec sel (Z.of_nat (S n) - 1)) as [-> | Hne].
  - replace (Z.of_nat (S n) - 1 + 1) with (Z.of_nat (S n)) by lia.
    apply Z_mod_same_full.
  - apply Z.mod_small. lia.
Qed.

Lemma wrap_back sel n :
  0 <= sel < Z.of_nat (S n) ->
  (sel - 1) mod Z.of_nat (S n) =
  (if sel =? 0 then Z.of_nat (S n) - 1 else sel - 1).
Proof.
  intros H. destruct (Z.eqb_spec sel 0) as [-> | Hne].
  - replace (0 - 1) with (Z.of_nat (S n) - 1 + -1 * Z.of_nat (S n)) by lia.
    rewrite Z_mod_plus_full. apply Z.mod_small. lia.
  - apply Z.mod_small. lia.
Qed.

Lemma play_sets_song sg s : song (player (exec (play (PySong sg)) s)) = Some sg.
Proof.
  open_sys s. destruct sg as [kn mn afil mfil ti].
  unfold exec, play, stop, bind. py_run; reflexivity.
Qed.

(** The selection wraps around the catalogue in both directions: past the
    last song comes the first, and before the first comes the last (Python's
    remainder takes the sign of the divisor). *)
Theorem song_selection_wraps (s : Sys) :
  idle s -> in_range s ->
  let n := Z.of_nat (List.length (songs s)) in
  selected (exec increment_song s) =
    (if selected s =? n - 1 then 0 else selected s + 1) /\
  selected (exec decrement_song s) =
    (if selected s =? 0 then n - 1 else selected s - 1).
Proof.
  destruct s as [[sg af aw ap tr mp st] w lv sel sgs].
  unfold idle, in_range. cbn. intros -> H.
  destruct sgs as [| x l]; [cbn in H; lia |].
  unfold exec, increment_song, decrement_song, bind. cbn.
  split; [apply (wrap_forth sel (List.length l) H)
         | apply (wrap_back sel (List.length l) H)].
Qed.

Lemma song_selection_wraps_witness :
  selected (exec increment_song demo) = 1 /\
  selected (exec decrement_song demo) = 2.
Proof.
  apply (song_selection_wraps demo);
    [reflexivity | unfold in_range, demo, boot; cbn; lia].
Defined.




(* ------------------------------------------------------------------ *)
(** ** update() *)

(** The periodic ticks of the task driver leave an idle engine exactly as
    it is: update() returns at its first test. *)
Theorem idle_ticks_change_nothing (scheds : list (list Gap)) (s : Sys) :
  idle s -> run (map tick scheds) s = (Return tt, s).
Proof.
  intros Hi. induction scheds as [| sched scheds IH]; [reflexivity |].
  cbn [map run act]. unfold bind.
  assert (Hu : update sched s = (Return tt, s)).
  { unfold idle in Hi. unfold update, bind, self, gets. rewrite Hi.
    reflexivity. }
  rewrite Hu. exact IH.
Qed.

Lemma idle_ticks_change_nothing_witness :
  run (map tick [[]; [mkGap 5 0 [call_stop]]; []]) demo = (Return tt, demo).
Proof.
  apply (idle_ticks_change_nothing [[]; [mkGap 5 0 [call_stop]]; []] demo).
  reflexivity.
Defined.

Lemma update_quiet s sg k sched :
  song (player s) = Some sg ->
  Song.has_midi sg = true ->
  midi_track (player s) = Some k ->
  quiet sched ->
  update sched s = (Return tt, after_quiet_update k sched s).
Proof.
  intros Hsg Hh Htr Hq.
  destruct s as [[sg0 af aw ap tr mp st] [ck dk ofs nfd strm cur hist] lv sel sgs].
  cbn in Hsg, Htr. subst sg0 tr.
  destruct sg as [kn mn afil mfil ti]. cbn in Hh.
  destruct mfil as [mpath |]; [clear Hh | discriminate].
  unfold update, after_quiet_update, bind, self, gets, assign, modify.
  cbn -[midi_loop after_paced].
  rewrite midi_loop_quiet by auto.
  unfold after_paced. cbn -[stop].
  destruct ap, strm as [wv |]; cbn -[stop]; try reflexivity;
    rewrite (run_pair stop _), stop_returns; reflexivity.
Qed.

Lemma nth_store {A} (l : list A) k v d :
  nth k (store l k v) d = if (k <? List.length l)%nat then v else d.
Proof.
  revert k; induction l as [| x l IH]; intros [| k]; cbn; try reflexivity.
  rewrite IH. reflexivity.
Qed.

Lemma drained_nth (l : list (list MidiEvent)) k :
  nth k (drained l k (nth k l [])) [] = [].
Proof.
  unfold drained. destruct (nth k l []) eqn:Hn; [exact Hn |].
  rewrite nth_store. destruct (_ <? _)%nat; reflexivity.
Qed.

(** Left alone, one update() runs the MIDI segment to its end: it returns,
    every event the generator still held has been dispatched once, in file
    order, the generator is empty and [midi_playing] is cleared; the session
    is over when update() returns unless the audio segment is active and the
    Audio Channel still streams. *)
Theorem midi_segment_runs_to_completion (s : Sys) (sg : Song.t) (k : nat)
        (sched : list Gap) :
  song (player s) = Some sg ->
  Song.has_midi sg = true ->
  midi_track (player s) = Some k ->
  quiet sched ->
  let s' := exec (update sched) s in
  let evs := nth k (cursors (world s)) [] in
  outcome (update sched) s = Return tt /\
  sends_of (history (world s')) =
    sends_of (history (world s)) ++ flat_map (sent k) evs /\
  nth k (cursors (world s')) [] = [] /\
  midi_playing (player s') = false /\
  (idle s' <->
   ~ (audio_playing (player s) = true /\ streaming (world s) <> None)).
Proof.
  intros Hsg Hh Htr Hq s' evs. subst s' evs.
  unfold outcome, exec. rewrite (update_quiet s sg k sched Hsg Hh Htr Hq).
  cbn [fst snd]. split; [reflexivity |].
  unfold after_quiet_update, after_paced, idle.
  destruct s as [[sg0 af aw ap tr mp st] [ck dk ofs nfd strm cur hist] lv sel sgs].
  cbn in Hsg. subst sg0. cbn.
  destruct ap, strm as [wv |], af as [fd |]; cbn;
    rewrite ?sends_of_app, ?sends_of_paced; cbn; rewrite ?app_nil_r;
    (split; [reflexivity |]); (split; [apply drained_nth |]);
    (split; [reflexivity |]);
    (split; [intros H; try discriminate H; intros [H1 H2];
             first [discriminate H1 | apply H2; reflexivity]
            | intros H;
              first [reflexivity
                    | exfalso; apply H; split; [reflexivity | discriminate]]]).
Qed.

Lemma midi_segment_runs_to_completion_witness :
  let s := exec (play (PySong song_m)) demo in
  let s' := exec (update []) s in
  outcome (update []) s = Return tt /\
  sends_of (history (world s')) =
    sends_of (history (world s)) ++ flat_map (sent 0) demo_events /\
  nth 0 (cursors (world s')) [] = [] /\
  midi_playing (player s') = false /\
  (idle s' <->
   ~ (audio_playing (player s) = true /\ streaming (world s) <> None)).
Proof.
  apply (midi_segment_runs_to_completion (exec (play (PySong song_m)) demo)
           song_m 0%nat []); try reflexivity. constructor.
Defined.

(** For a song without a MIDI asset update() never dispatches and never
    touches a generator, even when [midi_track] still holds the generator of
    an earlier song: the test on has_midi() comes first. *)
Theorem no_midi_asset_no_dispatch (s : Sys) (sg : Song.t) (sched : list Gap) :
  song (player s) = Some sg ->
  Song.has_midi sg = false ->
  let s' := exec (update sched) s in
  outcome (update sched) s = Return tt /\
  sends_of (history (world s')) = sends_of (history (world s)) /\
  cursors (world s') = cursors (world s) /\
  clock (world s') = clock (world s).
Proof.
  destruct s as [[sg0 af aw ap tr mp st] [ck dk ofs nfd strm cur hist] lv sel sgs].
  destruct sg as [kn mn afil mfil ti]. cbn. intros -> Hh.
  destruct mfil; [discriminate |].
  unfold outcome, exec, update, stop, bind. cbn.
  destruct tr, ap, strm, mp, af; cbn;
    rewrite ?sends_of_app; cbn; rewrite ?app_nil_r; auto.
Qed.

Lemma no_midi_asset_no_dispatch_witness :
  let s := exec (run [other (call_play (PySong song_m));
                      other (call_play (PySong song_a))]) demo in
  let s' := exec (update []) s in
  midi_track (player s) = Some 0%nat /\
  nth 0 (cursors (world s)) [] = demo_events /\
  outcome (update []) s = Return tt /\
  sends_of (history (world s')) = sends_of (history (world s)) /\
  cursors (world s') = cursors (world s) /\
  clock (world s') = clock (world s).
Proof.
  intros s s'. split; [reflexivity |]. split; [reflexivity |].
  apply (no_midi_asset_no_dispatch s song_a []); reflexivity.
Defined.

(** A generator is consumed once: when the generator in [midi_track] is
    exhausted, update() dispatches nothing, whatever the schedule; a session
    kept alive by its audio segment does not replay its MIDI events. *)
Theorem exhausted_generator_is_not_replayed (s : Sys) (k : nat)
        (sched : list Gap) :
  midi_track (player s) = Some k ->
  nth k (cursors (world s)) [] = [] ->
  let s' := exec (update sched) s in
  outcome (update sched) s = Return tt /\
  sends_of (history (world s')) = sends_of (history (world s)).
Proof.
  destruct s as [[sg0 af aw ap tr mp st] [ck dk ofs nfd strm cur hist] lv sel sgs].
  cbn. intros -> Hn.
  destruct sg0 as [[kn mn afil mfil ti] |]; [| split; reflexivity].
  unfold outcome, exec, update, stop, bind. cbn -[midi_loop].
  destruct mfil; cbn -[midi_loop]; rewrite ?Hn; cbn;
    destruct ap, strm, mp, af; cbn;
    rewrite ?sends_of_app; cbn; rewrite ?app_nil_r; auto.
Qed.

Lemma exhausted_generator_is_not_replayed_witness :
  let s := exec (run [other (call_play (PySong song_am)); tick []]) demo in
  let s' := exec (update [mkGap 3 1 [turn_up]]) s in
  song (player s) = Some song_am /\
  outcome (update [mkGap 3 1 [turn_up]]) s = Return tt /\
  sends_of (history (world s')) = sends_of (history (world s)).
Proof.
  intros s s'. split; [reflexivity |].
  apply (exhausted_generator_is_not_replayed s 0%nat [mkGap 3 1 [turn_up]]);
    reflexivity.
Defined.

(* ------------------------------------------------------------------ *)
(** ** play() and stop() *)

(** play(song) returns true exactly when every asset the song names can be
    opened and decoded; otherwise it raises an error of the file system or
    of the WAV decoder.  For a Song it never returns false. *)
Theorem play_succeeds_iff_assets_usable (sg : Song.t) (s : Sys) :
  (outcome (play (PySong sg)) s = Return true <->
   midi_usable (disk (world s)) sg /\ audio_usable (disk (world s)) sg) /\
  (outcome (play (PySong sg)) s <> Return true ->
   exists e, outcome (play (PySong sg)) s = Raise e /\ io_error e).
Proof.
  open_sys s. destruct sg as [kn mn afil mfil ti].
  unfold midi_usable, audio_usable, outcome, play, stop, bind.
  py_run;
    (split;
     [ split;
       [ intros H; first [ discriminate H
                         | split; first [ discriminate | exact I | eauto ] ]
       | intros [H1 H2];
         first [ reflexivity
               | exfalso; apply H1; reflexivity
               | destruct H2 as (? & ? & ? & H2); congruence ] ]
     | intros H;
       first [ exfalso; apply H; reflexivity
             | eexists; split; [reflexivity | exact I] ] ]).
Qed.

(** is_playing() is false right after construction, true after any call of
    play with a Song, whether play returns or raises (the song is recorded
    before its assets are opened), and false after stop(). *)
Theorem is_playing_follows_play :
  (forall d lv catalog, outcome is_playing (boot d lv catalog) = Return false) /\
  (forall sg s, outcome is_playing (exec (play (PySong sg)) s) = Return true) /\
  (forall s, outcome is_playing (exec stop s) = Return false).
Proof.
  split; [reflexivity | split].
  - intros sg s. pose proof (play_sets_song sg s) as H.
    unfold outcome, is_playing, bind, self, gets. cbn. rewrite H. reflexivity.
  - intros s. pose proof (stop_player s) as H.
    unfold outcome, is_playing, bind, self, gets. cbn. rewrite H. reflexivity.
Qed.

Lemma update_quiet_sends s sg k sched :
  song (player s) = Some sg ->
  Song.has_midi sg = true ->
  midi_track (player s) = Some k ->
  quiet sched ->
  sends_of (history (world (exec (update sched) s))) =
  sends_of (history (world s)) ++
  flat_map (sent k) (nth k (cursors (world s)) []).
Proof.
  intros Hsg Hh Htr Hq.
  unfold exec. rewrite (update_quiet s sg k sched Hsg Hh Htr Hq). cbn [snd].
  unfold after_quiet_update, after_paced.
  destruct s as [[sg0 af aw ap tr mp st] [ck dk ofs nfd strm cur hist] lv sel sgs].
  cbn in Hsg. subst sg0. cbn.
  destruct ap, strm as [wv |], af as [fd |]; cbn;
    rewrite ?sends_of_app, ?sends_of_paced; cbn; rewrite ?app_nil_r;
    reflexivity.
Qed.

Lemma play_midi_failure (sg : Song.t) (path : string) (s : Sys) :
  Song.midi_file sg = Some path ->
  midi_asset (disk (world s)) path = None ->
  let s' := exec (play (PySong sg)) s in
  outcome (play (PySong sg)) s = Raise (OSError path) /\
  song (player s') = Some sg /\
  midi_track (player s') = midi_track (player s) /\
  cursors (world s') = cursors (world s) /\
  calls s' = calls s ++ closing s /\
  start_time (player s') = start_time (player s) /\
  audio_playing (player s') = audio_playing (player s).
Proof.
  open_sys s. destruct sg as [kn mn afil mfil ti]. cbn. intros -> Hm.
  unfold exec, outcome, play, stop, bind, calls, closing.
  py_run; try congruence; rewrite ?map_app, <- ?app_assoc; cbn; auto 10.
Qed.

(** When the MIDI file of a song cannot be opened, play raises OSError
    before anything of the song is opened: the previous session has been
    stopped, the song is the current one, but [midi_track] still holds the
    generator of the song before; an update() called on that state would
    dispatch what that generator has left. *)
Theorem play_midi_failure_propagates (sg : Song.t) (path : string) (s : Sys) :
  Song.midi_file sg = Some path ->
  midi_asset (disk (world s)) path = None ->
  let s' := exec (play (PySong sg)) s in
  outcome (play (PySong sg)) s = Raise (OSError path) /\
  song (player s') = Some sg /\
  midi_track (player s') = midi_track (player s) /\
  cursors (world s') = cursors (world s) /\
  calls s' = calls s ++ closing s /\
  start_time (player s') = start_time (player s) /\
  audio_playing (player s') = audio_playing (player s) /\
  forall k sched,
    midi_track (player s) = Some k -> quiet sched ->
    sends_of (history (world (exec (update sched) s'))) =
    sends_of (history (world s')) ++
    flat_map (sent k) (nth k (cursors (world s)) []).
Proof.
  intros Hf Hm s'.
  destruct (play_midi_failure sg path s Hf Hm)
    as (H1 & H2 & H3 & H4 & H5 & H6 & H7).
  fold s' in H2, H3, H4, H5, H6, H7.
  do 7 (split; [assumption |]).
  intros k sched Hk Hq. rewrite <- H4.
  apply (update_quiet_sends s' sg k sched); auto.
  - unfold Song.has_midi. rewrite Hf. reflexivity.
  - congruence.
Qed.

Lemma play_midi_failure_propagates_witness :
  let s := exec (run [other (call_play (PySong song_m));
                      tick [mkGap 0 0 [call_stop]]]) demo in
  let s' := exec (play (PySong song_lost)) s in
  nth 0 (cursors (world s)) [] = tl demo_events /\
  outcome (play (PySong song_lost)) s = Raise (OSError "/sd/lost.mid") /\
  song (player s') = Some song_lost /\
  midi_track (player s') = midi_track (player s) /\
  cursors (world s') = cursors (world s) /\
  calls s' = calls s ++ closing s /\
  start_time (player s') = start_time (player s) /\
  audio_playing (player s') = audio_playing (player s) /\
  forall k sched,
    midi_track (player s) = Some k -> quiet sched ->
    sends_of (history (world (exec (update sched) s'))) =
    sends_of (history (world s')) ++
    flat_map (sent k) (nth k (cursors (world s)) []).
Proof.
  intros s s'. split; [reflexivity |].
  apply (play_midi_failure_propagates song_lost "/sd/lost.mid" s); reflexivity.
Defined.

(** stop() always returns and, on a coherent engine, releases the session:
    the engine is idle, no file is open and nothing streams; it makes the
    calls audio.stop() and, if a file was open, close(); it leaves
    [audio_playing], [midi_track] and [start_time] as they are; and a second
    stop() changes nothing but the history. *)
Theorem stop_releases_session (s : Sys) :
  coherent s ->
  let s' := exec stop s in
  outcome stop s = Return tt /\
  idle s' /\ open_files (world s') = [] /\ streaming (world s') = None /\
  midi_playing (player s') = false /\
  calls s' = calls s ++ closing s /\
  audio_playing (player s') = audio_playing (player s) /\
  midi_track (player s') = midi_track (player s) /\
  start_time (player s') = start_time (player s) /\
  same_state s' (exec stop s').
Proof.
  intros (Hof & _ & _). open_sys s. cbn in Hof.
  unfold outcome, exec, idle, calls, same_state.
  destruct af, sg; cbn in *; subst; cbn; rewrite ?Nat.eqb_refl; cbn;
    rewrite ?map_app, <- ?app_assoc; cbn; auto 20.
Qed.

Lemma stop_releases_session_witness :
  let s := exec (play (PySong song_am)) demo in
  let s' := exec stop s in
  outcome stop s = Return tt /\
  idle s' /\ open_files (world s') = [] /\ streaming (world s') = None /\
  midi_playing (player s') = false /\
  calls s' = calls s ++ closing s /\
  audio_playing (player s') = audio_playing (player s) /\
  midi_track (player s') = midi_track (player s) /\
  start_time (player s') = start_time (player s) /\
  same_state s' (exec stop s').
Proof.
  apply (stop_releases_session (exec (play (PySong song_am)) demo)).
  unfold coherent; cbn. repeat split; try discriminate.
  intros fd [= <-]; lia.
Defined.

(* ------------------------------------------------------------------ *)
(** ** Strings *)

Lemma chars_append s1 s2 :
  chars (String.append s1 s2) = chars s1 ++ chars s2.
Proof.
  induction s1 as [| a s1 IH]; cbn; [reflexivity |].
  unfold chars in IH. now rewrite IH.
Qed.

Lemma length_chars s : List.length (chars s) = String.length s.
Proof. induction s as [| a s IH]; cbn; [reflexivity | now rewrite <- IH]. Qed.

Lemma str_chars s : str (chars s) = s.
Proof. apply string_of_list_ascii_of_string. Qed.

Lemma chars_str l : chars (str l) = l.
Proof. apply list_ascii_of_string_of_list_ascii. Qed.

Lemma chars_inj s1 s2 : chars s1 = chars s2 -> s1 = s2.
Proof. intros H. rewrite <- (str_chars s1), <- (str_chars s2), H. reflexivity. Qed.

Lemma length_append s1 s2 :
  String.length (String.append s1 s2) = (String.length s1 + String.length s2)%nat.
Proof. rewrite <- !length_chars, chars_append. apply length_app. Qed.

Lemma endswith_spec s suf :
  endswith s suf = true <-> exists pre, s = String.append pre suf.
Proof.
  unfold endswith. rewrite andb_true_iff, Nat.leb_le, String.eqb_eq. split.
  - intros [Hle H].
    remember (String.length s - String.length suf)%nat as n eqn:Hn. clear Hn.
    exists (str (firstn n (chars s))).
    apply chars_inj. rewrite chars_append, chars_str, <- H, chars_str.
    symmetry. apply firstn_skipn.
  - intros [pre ->]. rewrite length_append. split; [lia |].
    replace (String.length pre + String.length suf - String.length suf)%nat
      with (List.length (chars pre)) by (rewrite length_chars; lia).
    rewrite chars_append, skipn_app, skipn_all, Nat.sub_diag. cbn.
    apply str_chars.
Qed.

Lemma lower_append s1 s2 :
  lower (String.append s1 s2) = String.append (lower s1) (lower s2).
Proof.
  unfold lower. apply chars_inj.
  rewrite chars_str, !chars_append, !chars_str. apply map_app.
Qed.

Lemma length_lower s : String.length (lower s) = String.length s.
Proof.
  unfold lower. rewrite <- !length_chars, chars_str. apply length_map.
Qed.

Lemma startswith_append pre s : startswith (String.append pre s) pre = true.
Proof.
  unfold startswith. induction pre as [| a pre IH]; cbn.
  - destruct s; reflexivity.
  - destruct (Ascii.ascii_dec a a); [exact IH | congruence].
Qed.

Lemma rfind_from_absent ch l : forall i last,
  ~ In ch l -> rfind_from ch l i last = last.
Proof.
  induction l as [| a l IH]; intros i last Hn; cbn; [reflexivity |].
  destruct (Ascii.eqb_spec a ch) as [-> | Hne].
  - exfalso. apply Hn. left. reflexivity.
  - apply IH. intros H. apply Hn. right. exact H.
Qed.

Lemma rfind_from_last ch l1 l2 : forall i last,
  ~ In ch l2 ->
  rfind_from ch (l1 ++ ch :: l2) i last = i + Z.of_nat (List.length l1).
Proof.
  induction l1 as [| a l1 IH]; intros i last Hn.
  - cbn. rewrite Ascii.eqb_refl, rfind_from_absent by exact Hn. lia.
  - cbn [app rfind_from]. rewrite IH by exact Hn. cbn [List.length]. lia.
Qed.

(* ------------------------------------------------------------------ *)
(** ** Validation of the configuration *)

Lemma startswith_slash p :
  startswith p "/" = true -> exists p', p = String "/" p'.
Proof.
  unfold startswith. destruct p as [| a p]; [discriminate |].
  cbn [prefix]. destruct (Ascii.ascii_dec "/" a) as [<- | Hne];
    [eauto | discriminate].
Qed.

Lemma sanitize_path_cases p :
  exists q, Validation.sanitize_path p = String.append "/sd/" q /\
            (if startswith p "/" then p = String "/" q else p = q).
Proof.
  unfold Validation.sanitize_path.
  destruct (startswith p "/") eqn:Hs.
  - destruct (startswith_slash p Hs) as [q ->]. exists q. auto.
  - exists p. auto.
Qed.

(** sanitize_path puts every path under /sd/: the result starts with /sd/,
    is three characters longer than a path that starts with a slash and four
    longer than one that does not, so that applying it twice never gives the
    same as applying it once; a path and the same path with a leading slash
    are sent to the same file. *)
Theorem sanitize_path_shape (p : string) :
  startswith (Validation.sanitize_path p) "/sd/" = true /\
  String.length (Validation.sanitize_path p) =
    (String.length p + (if startswith p "/" then 3 else 4))%nat /\
  Validation.sanitize_path (Validation.sanitize_path p) <>
    Validation.sanitize_path p /\
  (startswith p "/" = false ->
   Validation.sanitize_path (String.append "/" p) = Validation.sanitize_path p).
Proof.
  destruct (sanitize_path_cases p) as (q & Hq & Hp).
  assert (H0 : startswith (Validation.sanitize_path p) "/sd/" = true)
    by (rewrite Hq; apply startswith_append).
  assert (H2 : String.length (Validation.sanitize_path p) =
               (String.length p + (if startswith p "/" then 3 else 4))%nat).
  { rewrite Hq, length_append. destruct (startswith p "/"); subst p; cbn; lia. }
  split; [exact H0 |]. split; [exact H2 |]. split.
  - intros H. apply (f_equal String.length) in H.
    destruct (sanitize_path_cases (Validation.sanitize_path p))
      as (q' & Hq' & Hp').
    rewrite Hq in Hp'. cbn in Hp'. injection Hp' as Hp'.
    rewrite Hq', Hq, !length_append, <- Hp' in H. cbn in H. lia.
  - intros Hs. rewrite Hs in Hp. subst q. rewrite Hq.
    unfold Validation.sanitize_path. rewrite (startswith_append "/" p).
    reflexivity.
Qed.

Lemma pick_dict d key test :
  key <> ""%string ->
  Validation.pick (VDict d) key test =
  match assoc d key with
  | Some v => test v
  | None => Some false
  end.
Proof.
  intros Hk. unfold Validation.pick.
  destruct key as [| a key]; [congruence |]. cbn.
  destruct (assoc d (String a key)); reflexivity.
Qed.

(** valid_int on a dict never raises and accepts exactly the keys that hold
    an integer above the minimum: with the default minimum of 0 the value 0
    itself is refused, and so is a JSON true or false, which is not an
    int. *)
Theorem valid_int_accepts_integers_above_min (d : list (string * pyval))
        (key : string) (m : Z) :
  key <> ""%string ->
  (Validation.valid_int (VDict d) key (VInt m) = Some true <->
   exists n, assoc d key = Some (VInt n) /\ m < n) /\
  Validation.valid_int (VDict d) key (VInt m) <> None /\
  (forall b, assoc d key = Some (VBool b) ->
             Validation.valid_int (VDict d) key (VInt m) = Some false).
Proof.
  intros Hk. unfold Validation.valid_int. rewrite (pick_dict d key _ Hk).
  destruct (assoc d key) as [[| b | n | x | s | l | d'] |]; cbn;
    (split; [split; [intros [=] | intros (n' & [=] & Hn)] |
             split; [discriminate | intros b' [=]; try reflexivity]]).
  - exists n. split; [reflexivity | apply Z.ltb_lt; assumption].
  - subst n'. f_equal. apply Z.ltb_lt. assumption.
Qed.

Lemma valid_int_accepts_integers_above_min_witness :
  let d := [("key"%string, VInt 0); ("notenum"%string, VInt 60);
            ("flag"%string, VBool true)] in
  ((Validation.valid_int (VDict d) "notenum" (VInt 0) = Some true <->
    exists n, assoc d "notenum"%string = Some (VInt n) /\ 0 < n) /\
   Validation.valid_int (VDict d) "notenum" (VInt 0) <> None /\
   (forall b, assoc d "notenum"%string = Some (VBool b) ->
              Validation.valid_int (VDict d) "notenum" (VInt 0) = Some false)) /\
  Validation.valid_int (VDict d) "key" (VInt 0) = Some false.
Proof.
  intros d. split; [| reflexivity].
  apply (valid_int_accepts_integers_above_min d "notenum" 0). discriminate.
Defined.

Lemma dotted_starts e : startswith (dotted e) "." = true.
Proof.
  unfold dotted. destruct (startswith e ".") eqn:H; [exact H |].
  apply (startswith_append "." e).
Qed.

(** check_ext accepts a name exactly when it is longer than the extension,
    dot included, and ends with it, letter case apart; the extension may be
    given with or without its dot; a name that is nothing but the extension
    is refused; and given a list of extensions that is not empty it raises,
    for it calls a method that Song does not have. *)
Theorem check_ext_accepts (value ext : string) :
  (Validation.check_ext value (VStr ext) = Some true <->
   (String.length (dotted ext) < String.length value)%nat /\
   exists stem, lower value = String.append stem (lower (dotted ext))) /\
  Validation.check_ext value (VStr ext) =
    Validation.check_ext value (VStr (dotted ext)) /\
  Validation.check_ext (dotted ext) (VStr ext) = Some false /\
  (forall x l, Validation.check_ext value (VList (x :: l)) = None).
Proof.
  assert (Hc : forall v, Validation.check_ext v (VStr ext) =
                 if (String.length v <=? String.length (dotted ext))%nat
                 then Some false
                 else if negb (endswith (lower v) (lower (dotted ext)))
                      then Some false else Some true) by reflexivity.
  split; [| split; [| split]].
  - rewrite Hc.
    destruct (Nat.leb_spec (String.length value) (String.length (dotted ext)))
      as [Hle | Hlt].
    + split; [discriminate | intros [H _]; lia].
    + destruct (endswith (lower value) (lower (dotted ext))) eqn:He; cbn.
      * apply endswith_spec in He. split; auto.
      * split; [discriminate |]. intros [_ H].
        apply endswith_spec in H. congruence.
  - unfold Validation.check_ext. fold (dotted ext). fold (dotted (dotted ext)).
    assert (Hd : dotted (dotted ext) = dotted ext)
      by (unfold dotted at 1; rewrite dotted_starts; reflexivity).
    rewrite Hd. reflexivity.
  - rewrite Hc, Nat.leb_refl. reflexivity.
  - reflexivity.
Qed.

Lemma check_ext_str p ext :
  exists b, Validation.check_ext p (VStr ext) = Some b.
Proof.
  unfold Validation.check_ext.
  destruct (_ <=? _)%nat; [eauto |]. destruct (negb _); eauto.
Qed.

Lemma valid_path_dict stat d key ext :
  key <> ""%string -> ext <> ""%string ->
  Validation.valid_path stat (VDict d) key ext true true =
  Some (usable_entry stat d key ext).
Proof.
  intros Hk He. unfold Validation.valid_path, usable_entry, usable_path.
  rewrite (pick_dict d key _ Hk).
  destruct (assoc d key) as [[| b | n | x | p | l | d'] |]; try reflexivity.
  destruct ext as [| a ext]; [congruence |].
  cbn [String.length Nat.ltb Nat.leb negb andb].
  destruct (String.length p); cbn [negb andb]; [reflexivity |].
  destruct (check_ext_str p (String a ext)) as [b ->].
  destruct b; cbn [andb]; [| reflexivity].
  unfold Validation.check_path.
  destruct (stat (Validation.sanitize_path p)); reflexivity.
Qed.

Lemma append_assoc s1 s2 s3 :
  String.append (String.append s1 s2) s3 = String.append s1 (String.append s2 s3).
Proof. apply chars_inj. rewrite !chars_append. symmetry. apply app_assoc. Qed.

Lemma usable_path_sanitized stat p ext :
  usable_path stat p ext = true ->
  startswith (Validation.sanitize_path p) "/sd/" = true /\
  stat (Validation.sanitize_path p) = true /\
  endswith (lower (Validation.sanitize_path p)) (lower (dotted ext)) = true.
Proof.
  unfold usable_path. rewrite !andb_true_iff. intros [[_ Hc] Hs].
  destruct (sanitize_path_cases p) as (q & Hq & Hp).
  split; [rewrite Hq; apply startswith_append |]. split; [exact Hs |].
  assert (He : exists stem, lower p = String.append stem (lower (dotted ext))).
  { unfold Validation.check_ext in Hc. fold (dotted ext) in Hc.
    destruct (_ <=? _)%nat; [discriminate |].
    destruct (endswith (lower p) (lower (dotted ext))) eqn:He;
      [| discriminate].
    apply endswith_spec. exact He. }
  destruct He as [stem He]. apply endswith_spec.
  assert (Hpre : exists pre, Validation.sanitize_path p = String.append pre p).
  { destruct (startswith p "/"); subst p.
    - exists "/sd"%string. rewrite Hq. reflexivity.
    - exists "/sd/"%string. exact Hq. }
  destruct Hpre as [pre ->].
  exists (String.append (lower pre) stem).
  rewrite lower_append, He, append_assoc. reflexivity.
Qed.

Lemma Song_valid_dict stat d :
  Song_valid stat (VDict d) =
  Some (match assoc d "key" with
        | Some (VInt n) => 0 <? n
        | _ => false
        end &&
        (usable_entry stat d "audio" "wav" || usable_entry stat d "midi" "mid")).
Proof.
  unfold Song_valid.
  rewrite !valid_path_dict by discriminate.
  unfold Validation.valid_int. rewrite pick_dict by discriminate.
  destruct (assoc d "key") as [[| b | n | x | p | l | d'] |]; try reflexivity.
  destruct (0 <? n); [| reflexivity]. cbn [andb].
  destruct (usable_entry stat d "audio" "wav"); reflexivity.
Qed.

Lemma asset_of_dict stat d key ext :
  key <> ""%string -> ext <> ""%string ->
  asset_of stat (VDict d) key ext =
  Some (match assoc d key with
        | Some (VStr p) =>
            if usable_path stat p ext then Some (Validation.sanitize_path p)
            else None
        | _ => None
        end).
Proof.
  intros Hk He. unfold asset_of. rewrite valid_path_dict by assumption.
  unfold usable_entry. cbn [Validation.getitem].
  destruct (assoc d key) as [[| b | n | x | p | l | d'] |]; try reflexivity.
  destruct (usable_path stat p ext); reflexivity.
Qed.

Lemma valid_song_facts (stat : string -> bool) (data : pyval) :
  Song_valid stat data = Some true ->
  (exists d, data = VDict d) /\
  exists sg,
    Song_new stat data = Some sg /\
    0 < Song.keynum sg /\
    has_asset sg = true /\
    (forall p, Song.audio_file sg = Some p ->
               startswith p "/sd/" = true /\ stat p = true /\
               endswith (lower p) ".wav" = true) /\
    (forall p, Song.midi_file sg = Some p ->
               startswith p "/sd/" = true /\ stat p = true /\
               endswith (lower p) ".mid" = true).
Proof.
  destruct data as [| b | n | x | s | l | d]; try discriminate.
  rewrite Song_valid_dict. intros [= H]. apply andb_true_iff in H as [Hk Ha].
  split; [eauto |].
  unfold Song_new. cbn [Validation.getitem].
  rewrite !asset_of_dict by discriminate.
  unfold Validation.valid_int, Validation.valid_string.
  rewrite !pick_dict by discriminate.
  destruct (assoc d "key") as [[| b | n | x | p | l | d'] |]; try discriminate.
  apply Z.ltb_lt in Hk.
  assert (Hn : exists vn, match assoc d "notenum" with
                          | Some v => Some match v with
                                           | VInt n0 => 0 <? n0
                                           | _ => false
                                           end
                          | None => Some false
                          end = Some vn)
    by (destruct (assoc d "notenum"); eauto).
  destruct Hn as [vn ->].
  assert (Ht : exists vt, match assoc d "title" with
                          | Some v => Some match v with
                                           | VStr s => (0 <? String.length s)%nat
                                           | _ => false
                                           end
                          | None => Some false
                          end = Some vt)
    by (destruct (assoc d "title"); eauto).
  destruct Ht as [vt ->].
  eexists. split; [reflexivity |]. cbn [Song.keynum Song.audio_file Song.midi_file].
  split; [exact Hk |]. unfold usable_entry in Ha.
  split; [| split].
  - unfold has_asset, Song.has_audio, Song.has_midi. cbn.
    apply orb_true_iff in Ha as [Ha | Ha];
      [destruct (assoc d "audio") as [[| | | | p | |] |]; try discriminate;
       rewrite Ha; reflexivity |].
    destruct (assoc d "midi") as [[| | | | p | |] |]; try discriminate.
    rewrite Ha. cbn. apply orb_true_r.
  - intros p0.
    destruct (assoc d "audio") as [[| | | | p | |] |]; try discriminate.
    destruct (usable_path stat p "wav") eqn:Hu; [| discriminate].
    intros [= <-]. apply (usable_path_sanitized stat p "wav" Hu).
  - intros p0.
    destruct (assoc d "midi") as [[| | | | p | |] |]; try discriminate.
    destruct (usable_path stat p "mid") eqn:Hu; [| discriminate].
    intros [= <-]. apply (usable_path_sanitized stat p "mid" Hu).
Qed.

(** Data that Song.valid accepts is a dict, and Song(data) then does not
    raise: the song it builds has a key above 0 and at least one asset, and
    each asset path it holds starts with /sd/, names a file that was on the
    card when the configuration was read, and has the extension asked
    for. *)
Theorem valid_song_is_constructed (stat : string -> bool) (data : pyval) :
  Song_valid stat data = Some true ->
  (exists d, data = VDict d) /\
  exists sg,
    Song_new stat data = Some sg /\
    0 < Song.keynum sg /\
    has_asset sg = true /\
    (forall p, Song.audio_file sg = Some p ->
               startswith p "/sd/" = true /\ stat p = true /\
               endswith (lower p) ".wav" = true) /\
    (forall p, Song.midi_file sg = Some p ->
               startswith p "/sd/" = true /\ stat p = true /\
               endswith (lower p) ".mid" = true).
Proof. apply valid_song_facts. Qed.

Lemma valid_song_is_constructed_witness :
  let data := demo_entry 2 "/b.WAV" in
  (exists d, data = VDict d) /\
  exists sg,
    Song_new demo_stat data = Some sg /\
    0 < Song.keynum sg /\
    has_asset sg = true /\
    (forall p, Song.audio_file sg = Some p ->
               startswith p "/sd/" = true /\ demo_stat p = true /\
               endswith (lower p) ".wav" = true) /\
    (forall p, Song.midi_file sg = Some p ->
               startswith p "/sd/" = true /\ demo_stat p = true /\
               endswith (lower p) ".mid" = true).
Proof.
  apply (valid_song_is_constructed demo_stat (demo_entry 2 "/b.WAV")).
  reflexivity.
Defined.

Lemma skipn_past {A} (l1 l2 : list A) : skipn (List.length l1) (l1 ++ l2) = l2.
Proof. rewrite skipn_app, skipn_all, Nat.sub_diag. reflexivity. Qed.

Lemma firstn_upto {A} (l1 l2 : list A) : firstn (List.length l1) (l1 ++ l2) = l1.
Proof.
  rewrite firstn_app, firstn_all, Nat.sub_diag. cbn. apply app_nil_r.
Qed.

(** basename of directory/name.ext is name, when neither the name nor the
    extension holds a slash or a dot; the directory may hold both. *)
Theorem basename_strips_directory_and_extension (dir name ext : string) :
  without "/" name -> without "." name ->
  without "/" ext -> without "." ext ->
  Validation.basename
    (VStr (String.append dir
             (String.append "/" (String.append name (String.append "." ext)))))
  = name.
Proof.
  unfold without. intros Hn1 Hn2 He1 He2.
  set (p := String.append dir _).
  assert (Hc : chars p = (chars dir ++ ["/"%char]) ++
                         chars name ++ "."%char :: chars ext).
  { unfold p. rewrite !chars_append, <- app_assoc. reflexivity. }
  assert (Hs : rfind p "/" = Z.of_nat (String.length dir)).
  { unfold rfind. rewrite Hc, <- app_assoc. cbn [app].
    rewrite rfind_from_last; [rewrite length_chars; lia |].
    intros H. apply in_app_or in H as [H | [H | H]];
      [apply Hn1, H | discriminate H | apply He1, H]. }
  assert (Hd : rfind p "." =
               Z.of_nat (String.length dir) + 1 + Z.of_nat (String.length name)).
  { unfold rfind. rewrite Hc, app_assoc.
    rewrite rfind_from_last by exact He2.
    rewrite !length_app, !length_chars. cbn. lia. }
  assert (Hl : String.length p =
               (String.length dir + 1 + String.length name + 1
                + String.length ext)%nat).
  { rewrite <- (length_chars p), Hc, !length_app. cbn [List.length].
    rewrite !length_chars. lia. }
  unfold Validation.basename.
  replace (0 <? String.length p)%nat with true
    by (symmetry; apply Nat.ltb_lt; lia).
  unfold py_slice, py_bound. rewrite Hs, Hd, Hl.
  destruct (Z.ltb_spec (Z.of_nat (String.length dir) + 1) 0); [lia |].
  destruct (Z.ltb_spec (Z.of_nat (String.length dir) + 1
                        + Z.of_nat (String.length name)) 0); [lia |].
  rewrite !Z.min_l by lia.
  replace (Z.to_nat (Z.of_nat (String.length dir) + 1))
    with (List.length (chars dir ++ ["/"%char]))
    by (rewrite length_app, length_chars; cbn; lia).
  replace (Z.to_nat (Z.of_nat (String.length dir) + 1
                     + Z.of_nat (String.length name)
                     - (Z.of_nat (String.length dir) + 1)))
    with (List.length (chars name)) by (rewrite length_chars; lia).
  rewrite Hc, skipn_past, firstn_upto. apply str_chars.
Qed.

Lemma basename_strips_directory_and_extension_witness :
  Validation.basename (VStr "/sd/live.2024/first song.wav") = "first song"%string.
Proof.
  apply (basename_strips_directory_and_extension "/sd/live.2024" "first song"
           "wav"); unfold without; cbn; intuition discriminate.
Defined.

(** On a name without a dot and without a slash, basename drops the last
    character: rfind gives -1 for the dot, and the slice then ends one
    short of the end. *)
Theorem basename_without_dot_drops_last_character (p : string) :
  without "." p -> without "/" p ->
  Validation.basename (VStr p) = str (removelast (chars p)).
Proof.
  unfold without. intros Hd Hs. unfold Validation.basename.
  destruct (Nat.ltb_spec 0 (String.length p)) as [Hl | Hl];
    [| destruct p; [reflexivity | cbn in Hl; lia]].
  unfold rfind. rewrite !rfind_from_absent by assumption.
  unfold py_slice, py_bound.
  change (-1 + 1) with 0. change (0 <? 0) with false.
  change (-1 <? 0) with true. cbv iota.
  rewrite Z.min_l, Z.max_l by lia. cbn [skipn Z.to_nat].
  rewrite removelast_firstn_len, length_chars. f_equal. f_equal. lia.
Qed.

Lemma basename_without_dot_drops_last_character_witness :
  Validation.basename (VStr "readme") = "readm"%string.
Proof.
  apply (basename_without_dot_drops_last_character "readme");
    unfold without; cbn; intuition discriminate.
Defined.

(* ------------------------------------------------------------------ *)
(** ** The catalogue *)

Lemma Song_valid_total stat data : exists b, Song_valid stat data = Some b.
Proof.
  destruct data as [| b | n | x | s | l | d];
    try (exists false; reflexivity).
  rewrite Song_valid_dict. eauto.
Qed.

Lemma load_songs_acc stat entries : forall acc,
  load_songs stat entries acc = Some (acc ++ songs_of stat entries).
Proof.
  induction entries as [| d entries IH]; intros acc.
  - cbn. now rewrite app_nil_r.
  - cbn [load_songs songs_of flat_map].
    destruct (Song_valid_total stat d) as [[|] Hv]; rewrite Hv.
    + destruct (valid_song_facts stat d Hv) as (_ & sg & Hn & _).
      rewrite Hn, IH, <- app_assoc. reflexivity.
    + rewrite IH. reflexivity.
Qed.

Lemma songs_of_well_formed stat entries :
  Forall well_formed_song (songs_of stat entries) /\
  (List.length (songs_of stat entries) <= List.length entries)%nat.
Proof.
  induction entries as [| d entries [IH1 IH2]]; [split; [constructor | cbn; lia] |].
  cbn [songs_of flat_map].
  destruct (Song_valid stat d) as [[|] |] eqn:Hv; cbn [app];
    try (split; [exact IH1 | cbn; unfold songs_of in IH2; lia]).
  destruct (valid_song_facts stat d Hv) as (_ & sg & Hn & Hk & Ha & _).
  rewrite Hn. cbn [app List.length]. split.
  - constructor; [split; assumption | exact IH1].
  - unfold songs_of in IH2. lia.
Qed.

(** The loop that builds the catalogue never raises, whatever the entries
    are: it yields the songs of the valid entries in the order of the
    entries, no more songs than entries, each with a key above 0 and at
    least one asset. *)
Theorem catalogue_is_the_valid_entries (stat : string -> bool)
        (entries : list pyval) :
  load_songs stat entries [] = Some (songs_of stat entries) /\
  Forall well_formed_song (songs_of stat entries) /\
  (List.length (songs_of stat entries) <= List.length entries)%nat.
Proof.
  split; [apply (load_songs_acc stat entries []) | apply songs_of_well_formed].
Qed.

(** A program that gets past its start has an object as configuration and
    a catalogue that is not empty, of songs with a key above 0 and an asset;
    whatever run follows, the selection stays an index of the catalogue and
    the run can only fail with an error of the file system or of the WAV
    decoder. *)
Theorem loaded_catalogue_is_playable (stat : string -> bool) (config : pyval)
        (volume : option Q) (channel : option Z) (catalog : list Song.t) :
  startup stat config = Loaded volume channel catalog ->
  (exists d, config = VDict d) /\
  catalog <> [] /\
  Forall well_formed_song catalog /\
  forall acts dk lv,
    match outcome (run acts) (boot dk lv catalog) with
    | Return _ => in_range (exec (run acts) (boot dk lv catalog))
    | Raise e => io_error e
    end.
Proof.
  unfold startup. destruct (is_false config); [discriminate |].
  destruct (Validation.valid_float config "volume" (VBool false)) as [vv |];
    [| discriminate].
  destruct (Validation.valid_int config "midi_channel" (VInt 0)) as [vc |];
    [| discriminate].
  destruct (Validation.valid_list config "songs") as [vl |]; [| discriminate].
  destruct (negb vl); [discriminate |].
  destruct (Validation.getitem config "songs") as [[| | | | | entries |] |] eqn:Hg;
    try discriminate.
  rewrite (load_songs_acc stat entries []). cbn [app].
  pose proof (songs_of_well_formed stat entries) as [Hw _].
  destruct (songs_of stat entries) as [| sg l] eqn:Hs; [discriminate |].
  intros [= _ _ <-].
  split; [destruct config; try discriminate Hg; eauto |].
  split; [discriminate |]. split; [exact Hw |].
  intros acts dk lv.
  pose proof (sane_run (sg :: l) acts (boot dk lv (sg :: l))
                (boot_sound dk lv (sg :: l))) as H.
  unfold outcome, exec in *.
  destruct (run acts (boot dk lv (sg :: l))) as [[[] | e] s']; cbn in *;
    destruct H as (_ & _ & Hr); apply Hr; discriminate.
Qed.

Lemma loaded_catalogue_is_playable_witness :
  exists catalog,
    startup demo_stat demo_config = Loaded (Some (1 # 2)) None catalog /\
    List.length catalog = 2%nat /\
    (exists d, demo_config = VDict d) /\
    catalog <> [] /\
    Forall well_formed_song catalog /\
    forall acts dk lv,
      match outcome (run acts) (boot dk lv catalog) with
      | Return _ => in_range (exec (run acts) (boot dk lv catalog))
      | Raise e => io_error e
      end.
Proof.
  eexists. split; [reflexivity |]. split; [reflexivity |].
  apply (loaded_catalogue_is_playable demo_stat demo_config (Some (1 # 2)) None).
  reflexivity.
Defined.

(** A configuration file that holds None, a bool or a number instead of an
    object ends the program at once: with sys.exit() when the value equals
    False (false, 0 and 0.0 do), and otherwise with the TypeError of the
    first membership test. *)
Theorem scalar_config_exits_or_crashes (stat : string -> bool) (config : pyval) :
  scalar config = true ->
  startup stat config = if is_false config then Exit else Crash.
Proof.
  destruct config as [| b | n | x | s | l | d]; try discriminate; intros _;
    unfold startup; destruct (is_false _); reflexivity.
Qed.

Lemma scalar_config_exits_or_crashes_witness :
  startup demo_stat (VInt 0) = Exit /\ startup demo_stat (VInt 5) = Crash.
Proof.
  split.
  - apply (scalar_config_exits_or_crashes demo_stat (VInt 0)). reflexivity.
  - apply (scalar_config_exits_or_crashes demo_stat (VInt 5)). reflexivity.
Defined.
